(** * RocketPool contract resolver (rocketwatch/utils/rocketpool.py)

    A shallow embedding of the [RocketPool] class: the name/address
    registry (a [bidict]), the three [FIFOCache]s behind the [@cached]
    decorators, the mutually recursive resolution functions, the dotted
    path dispatcher, the revert-reason decoder and the deposit-event
    reader.

    The Python object is a record [RocketPool] threaded through a
    state-and-exception monad; a raised exception keeps the mutations made
    before it, as in Python.  The chain client, the file system, the
    configuration and the decoders are collected in a record [World];
    answers of the chain may depend on the interactions made so far. *)

From Stdlib Require Import ZArith Lia Ascii.
From Stdlib.Strings Require Import Byte.
From stdpp Require Import base tactics option list strings pretty gmap relations.

Local Open Scope string_scope.
Local Open Scope Z_scope.

(** ** Python values and exceptions *)

(** The dynamic values that reach this module as call arguments or as the
    optional [address] parameter.  Equality of these is Python's [==]
    (there is no bool/int or int/float overlap in this universe). *)
Inductive pyval :=
| VNone
| VInt (z : Z)
| VStr (s : string)
| VBytes (b : list byte).

#[global] Instance byte_eq_dec : EqDecision byte := Byte.byte_eq_dec.

#[global] Instance pyval_eq_dec : EqDecision pyval.
Proof. solve_decision. Defined.

(** Python truthiness, as used by [if not address] and [if not abi]. *)
Definition truthy (v : pyval) : bool :=
  match v with
  | VNone => false
  | VInt z => negb (z =? 0)
  | VStr s => negb (bool_decide (s = ""))
  | VBytes b => negb (bool_decide (b = []))
  end.

Definition str_truthy (s : string) : bool := negb (bool_decide (s = "")).

Inductive exn :=
| RecursionError
| Exception (msg : string)                         (* [raise Exception(f"...")] in this file *)
| ValueDuplicationError (val : string)             (* bidict *)
| KeyAndValueDuplicationError (key val : string)   (* bidict *)
| TypeError
| ValueError
| UserWarning (msg : string)                       (* a warning turned into an error *)
| ExternalError (code : Z).                        (* anything the collaborators raise *)

#[global] Instance exn_eq_dec : EqDecision exn.
Proof. solve_decision. Defined.

Inductive result (A : Type) :=
| Ok (a : A)
| Err (e : exn).
Arguments Ok {A} a.
Arguments Err {A} e.

Definition is_ok {A} (r : result A) : bool :=
  match r with Ok _ => true | Err _ => false end.

(** ** bidict *)

Module Bidict.

(** [bidict] keeps a forward and an inverse dictionary. *)
Record t := mk {
  fwdm : gmap string string;
  invm : gmap string string
}.

Definition empty : t := {| fwdm := ∅; invm := ∅ |}.

(** [b[name]], [None] standing for [name not in b] *)
Definition get (key : string) (b : t) : option string := fwdm b !! key.

(** [b.inverse.get(address, None)] *)
Definition inverse_get (val : string) (b : t) : option string := invm b !! val.

(** [b[key] = val], that is [_put] with [ON_DUP_DEFAULT]
    ([key=DROP_OLD, val=RAISE, kv=RAISE]): [_dedup] followed by
    [_write]. *)
Definition setitem (key val : string) (b : t) : result t :=
  match fwdm b !! key, invm b !! val with
  | Some oldval, Some oldkey =>
      if decide (key = oldkey)
      then Ok b                                          (* same item: no-op *)
      else Err (KeyAndValueDuplicationError key val)
  | Some oldval, None =>                                 (* key duplication: drop old *)
      Ok {| fwdm := <[key := val]> (fwdm b);
            invm := delete oldval (<[val := key]> (invm b)) |}
  | None, Some oldkey => Err (ValueDuplicationError val) (* value duplication: raise *)
  | None, None =>
      Ok {| fwdm := <[key := val]> (fwdm b);
            invm := <[val := key]> (invm b) |}
  end.

(** The two dictionaries mirror each other. *)
Definition consistent (b : t) : Prop :=
  ∀ k v, fwdm b !! k = Some v ↔ invm b !! v = Some k.

End Bidict.

(** ** cachetools.FIFOCache *)

Module FIFO.
Section fifo.
Context {K V : Type} `{EqDecision K}.

(** Entries in insertion order, oldest first. *)
Definition t := list (K * V).

Definition maxsize : nat := 2048.

Fixpoint getitem (k : K) (c : t) : option V :=
  match c with
  | [] => None
  | (k', v) :: c' => if decide (k = k') then Some v else getitem k c'
  end.

Fixpoint delitem (k : K) (c : t) : t :=
  match c with
  | [] => []
  | (k', v) :: c' => if decide (k = k') then delitem k c' else (k', v) :: delitem k c'
  end.

(** [while self.currsize + 1 > self.maxsize: self.popitem()], where
    [popitem] removes the oldest entry. *)
Fixpoint make_room (c : t) : t :=
  match c with
  | [] => []
  | _ :: c' => if decide (maxsize < length c + 1)%nat then make_room c' else c
  end.

(** [cache[k] = v]: room is made only for a new key; an existing key
    is overwritten and moved to the end of the order. *)
Definition setitem (k : K) (v : V) (c : t) : t :=
  match getitem k c with
  | Some _ => (delitem k c ++ [(k, v)])%list
  | None => (make_room c ++ [(k, v)])%list
  end.

End fifo.
Arguments t : clear implicits.
End FIFO.

(** ** Strings: [str.split], [int(s, 16)], [bytes.hex] *)

(** [s.split(sep)] for a one-character separator. *)
Fixpoint split (sep : ascii) (s : string) : list string :=
  match s with
  | EmptyString => [EmptyString]
  | String c s' =>
      if decide (c = sep) then EmptyString :: split sep s'
      else match split sep s' with
           | h :: t => String c h :: t
           | [] => [String c EmptyString]
           end
  end.

Definition hex_digit (c : ascii) : option Z :=
  let n := Z.of_nat (nat_of_ascii c) in
  if (48 <=? n) && (n <=? 57) then Some (n - 48)
  else if (97 <=? n) && (n <=? 102) then Some (n - 87)
  else if (65 <=? n) && (n <=? 70) then Some (n - 55)
  else None.

Fixpoint hex_value (acc : Z) (s : string) : option Z :=
  match s with
  | EmptyString => Some acc
  | String c s' =>
      match hex_digit c with
      | Some d => hex_value (16 * acc + d) s'
      | None => None
      end
  end.

Definition strip_0x (s : string) : string :=
  match s with
  | String "0" (String "x" r) => r
  | String "0" (String "X" r) => r
  | _ => s
  end.

(** [w3.toInt(hexstr=s)], which is [int(s, 16)], on the strings the chain
    client produces for an [address] output: an optional [0x] prefix and
    at least one hexadecimal digit; anything else is a [ValueError]. *)
Definition toInt (s : string) : result Z :=
  match strip_0x s with
  | EmptyString => Err ValueError
  | d => match hex_value 0 d with
         | Some z => Ok z
         | None => Err ValueError
         end
  end.

Definition hex_char (n : N) : ascii :=
  if (n <? 10)%N then ascii_of_N (48 + n) else ascii_of_N (87 + n).

(** [b.hex()] *)
Fixpoint bytes_hex (b : list byte) : string :=
  match b with
  | [] => EmptyString
  | x :: b' =>
      let n := Byte.to_N x in
      String (hex_char (n / 16)%N) (String (hex_char (n mod 16)%N) (bytes_hex b'))
  end.

(** [str(name)] inside an f-string, for a name that may be [None]. *)
Definition pystr (name : option string) : string :=
  match name with
  | Some s => s
  | None => "None"
  end.

(** ** Contract handles, chain interactions and the collaborators *)

(** What [w3.eth.contract(address=..., abi=...)] binds together; the
    network is the client it was built on ([mainnet_w3] or [w3]). *)
Record Contract := {
  c_mainnet : bool;
  c_address : pyval;
  c_abi : string
}.

(** [contract.functions[function]] applied to the arguments *)
Record BoundCall := {
  bc_contract : Contract;
  bc_function : string;
  bc_args : list pyval
}.

(** The transaction fields [get_revert_reason] reads. *)
Record Transaction := {
  tx_from : string;
  tx_to : string;
  tx_input : string;
  tx_gas : Z;
  tx_gasPrice : Z;
  tx_value : Z;
  tx_blockNumber : Z;
  tx_hash : string
}.

(** The dictionary handed to [w3.eth.call]. *)
Record CallParams := {
  cp_from : string;
  cp_to : string;
  cp_data : string;
  cp_gas : Z;
  cp_gasPrice : Z;
  cp_value : Z
}.

Record LogEntry := {
  log_address : string;
  log_topics : list string;
  log_data : string
}.

Record Receipt := {
  logs : list LogEntry
}.

(** How a replayed [w3.eth.call] ends. *)
Inductive call_outcome :=
| Returned (data : string)
| RaisedContractLogicError (args : list string)
| RaisedValueError (code : Z)          (* [err.args[0]["code"]] *)
| RaisedOther (e : exn).

(** Requests sent to the chain, newest first. *)
Inductive event :=
| EvGetAddress (name : string) (c : Contract) (sha3 : string)
| EvGetString (name : option string) (c : Contract) (sha3 : string)
| EvCall (f : BoundCall) (block : pyval)
| EvEstimateGas (f : BoundCall) (gas : Z) (block : pyval)
| EvEthCall (p : CallParams) (block : Z).

(** How web3's [get_event_data] ends on one log of a receipt: the event
    is decoded; or it raises one of the four errors that [processReceipt]
    catches ([MismatchedABI], [LogTopicError], [InvalidEventABI],
    [TypeError]: the log is not this event); or it raises anything else,
    which [processReceipt] does not catch (eth_abi's [DecodingError] on
    data that does not fit the types of the event). *)
Inductive decode_outcome :=
| Decoded (pubkey : list byte)         (* the [pubkey] argument of the event *)
| Mismatched
| DecodeRaised (e : exn).

(** The action of the innermost matching warnings filter. *)
Inductive warn_action :=
| FilterIgnore
| FilterShow
| FilterError.

Record World := {
  (** [cfg["rocketpool.manual_addresses"].items()] *)
  manual_addresses : list (string * string);
  (** whether [Multicall(w3.eth)] can be built *)
  multicall_init : result unit;
  (** [w3.soliditySha3] on string values *)
  keccak : list string → list string → string;
  (** contents of a file, [None] when [os.path.exists] is false *)
  file : string → option string;
  (** [utils.readable.decode_abi] *)
  decode_abi : string → result string;
  (** validation done by [eth.contract] on the given client *)
  contract_check : bool → pyval → string → option exn;
  (** validation done by [contract.functions[function]] applied to the arguments *)
  bind_check : Contract → string → list pyval → option exn;
  (** [rocketStorage.functions.getAddress(sha3).call()] *)
  chain_getAddress : list event → Contract → string → result string;
  (** [rocketStorage.functions.getString(sha3).call()] *)
  chain_getString : list event → Contract → string → result string;
  (** [f.call(block_identifier=block)] *)
  chain_call : list event → BoundCall → pyval → result pyval;
  (** [f.estimateGas({"gas": gas}, block_identifier=block)] *)
  chain_estimateGas : list event → BoundCall → Z → pyval → result pyval;
  (** [w3.eth.call(params, block_identifier=block)] *)
  eth_call : list event → CallParams → Z → call_outcome;
  (** [get_event_data] for [DepositEvent] on one log *)
  decode_DepositEvent : Contract → LogEntry → decode_outcome
}.

(** ** The resolver object *)

Definition contract_key : Type := option string * pyval * option bool.

(** The three class-level caches and the instance attributes, with the
    process-wide warnings filter and two ghost fields: the requests sent
    to the chain so far and the warnings that were shown. *)
Record RocketPool := {
  ADDRESS_CACHE : FIFO.t string string;
  ABI_CACHE : FIFO.t (option string) string;
  CONTRACT_CACHE : FIFO.t contract_key Contract;
  addresses : Bidict.t;
  multicall : bool;
  warn_filter : warn_action;
  shown_warnings : list string;
  trace : list event
}.

Definition set_ADDRESS_CACHE (c : FIFO.t string string) (st : RocketPool) : RocketPool :=
  {| ADDRESS_CACHE := c; ABI_CACHE := ABI_CACHE st; CONTRACT_CACHE := CONTRACT_CACHE st;
     addresses := addresses st; multicall := multicall st; warn_filter := warn_filter st;
     shown_warnings := shown_warnings st; trace := trace st |}.

Definition set_ABI_CACHE (c : FIFO.t (option string) string) (st : RocketPool) : RocketPool :=
  {| ADDRESS_CACHE := ADDRESS_CACHE st; ABI_CACHE := c; CONTRACT_CACHE := CONTRACT_CACHE st;
     addresses := addresses st; multicall := multicall st; warn_filter := warn_filter st;
     shown_warnings := shown_warnings st; trace := trace st |}.

Definition set_CONTRACT_CACHE (c : FIFO.t contract_key Contract) (st : RocketPool) : RocketPool :=
  {| ADDRESS_CACHE := ADDRESS_CACHE st; ABI_CACHE := ABI_CACHE st; CONTRACT_CACHE := c;
     addresses := addresses st; multicall := multicall st; warn_filter := warn_filter st;
     shown_warnings := shown_warnings st; trace := trace st |}.

Definition set_addresses (b : Bidict.t) (st : RocketPool) : RocketPool :=
  {| ADDRESS_CACHE := ADDRESS_CACHE st; ABI_CACHE := ABI_CACHE st;
     CONTRACT_CACHE := CONTRACT_CACHE st;
     addresses := b; multicall := multicall st; warn_filter := warn_filter st;
     shown_warnings := shown_warnings st; trace := trace st |}.

Definition set_multicall (m : bool) (st : RocketPool) : RocketPool :=
  {| ADDRESS_CACHE := ADDRESS_CACHE st; ABI_CACHE := ABI_CACHE st;
     CONTRACT_CACHE := CONTRACT_CACHE st;
     addresses := addresses st; multicall := m; warn_filter := warn_filter st;
     shown_warnings := shown_warnings st; trace := trace st |}.

Definition set_warn_filter (a : warn_action) (st : RocketPool) : RocketPool :=
  {| ADDRESS_CACHE := ADDRESS_CACHE st; ABI_CACHE := ABI_CACHE st;
     CONTRACT_CACHE := CONTRACT_CACHE st;
     addresses := addresses st; multicall := multicall st; warn_filter := a;
     shown_warnings := shown_warnings st; trace := trace st |}.

Definition show_warning (msg : string) (st : RocketPool) : RocketPool :=
  {| ADDRESS_CACHE := ADDRESS_CACHE st; ABI_CACHE := ABI_CACHE st;
     CONTRACT_CACHE := CONTRACT_CACHE st;
     addresses := addresses st; multicall := multicall st; warn_filter := warn_filter st;
     shown_warnings := msg :: shown_warnings st; trace := trace st |}.

Definition record_event (e : event) (st : RocketPool) : RocketPool :=
  {| ADDRESS_CACHE := ADDRESS_CACHE st; ABI_CACHE := ABI_CACHE st;
     CONTRACT_CACHE := CONTRACT_CACHE st;
     addresses := addresses st; multicall := multicall st; warn_filter := warn_filter st;
     shown_warnings := shown_warnings st; trace := e :: trace st |}.

(** ** State and exceptions *)

Definition M (A : Type) : Type := RocketPool → result A * RocketPool.

Definition ret {A} (a : A) : M A := λ st, (Ok a, st).

Definition raise {A} (e : exn) : M A := λ st, (Err e, st).

Definition lift {A} (r : result A) : M A := λ st, (r, st).

Definition bind {A B} (m : M A) (k : A → M B) : M B := λ st,
  match m st with
  | (Ok a, st') => k a st'
  | (Err e, st') => (Err e, st')
  end.

Notation "'let!' x ':=' m 'in' k" := (bind m (λ x, k))
  (at level 10, x binder, m at level 100, k at level 200).

(** [@cached(cache=...)]: look the key up; on a miss run the function
    and store what it returns.  Nothing is stored when it raises. *)
Definition cached {K V : Type} `{EqDecision K}
    (cache : RocketPool → FIFO.t K V) (store : FIFO.t K V → RocketPool → RocketPool)
    (k : K) (func : M V) : M V := λ st,
  match FIFO.getitem k (cache st) with
  | Some v => (Ok v, st)
  | None =>
      match func st with
      | (Ok v, st') => (Ok v, store (FIFO.setitem k v (cache st')) st')
      | (Err e, st') => (Err e, st')
      end
  end.

(** [self.addresses[name] = address] *)
Definition addresses_setitem (name address : string) : M unit := λ st,
  match Bidict.setitem name address (addresses st) with
  | Ok b => (Ok tt, set_addresses b st)
  | Err e => (Err e, st)
  end.

(** [warnings.warn(msg)] under the current filter. *)
Definition warn (msg : string) : M unit := λ st,
  match warn_filter st with
  | FilterIgnore => (Ok tt, st)
  | FilterShow => (Ok tt, show_warning msg st)
  | FilterError => (Err (UserWarning msg), st)
  end.

(** ** The methods of [RocketPool] *)

Section methods.
Variable W : World.

(** [w3.soliditySha3(types, values)]; a value that is not a string
    ([None]) is rejected by the encoder. *)
Definition soliditySha3 (types : list string) (values : list (option string)) : result string :=
  match mapM id values with
  | Some vs => Ok (keccak W types vs)
  | None => Err TypeError
  end.

(** [eth.contract(address=address, abi=abi)] on [mainnet_w3] or [w3]. *)
Definition eth_contract (mainnet : bool) (address : pyval) (abi : string) : result Contract :=
  match contract_check W mainnet address abi with
  | Some e => Err e
  | None => Ok {| c_mainnet := mainnet; c_address := address; c_abi := abi |}
  end.

Definition bind_function (c : Contract) (function : string) (args : list pyval)
  : result BoundCall :=
  match bind_check W c function args with
  | Some e => Err e
  | None => Ok {| bc_contract := c; bc_function := function; bc_args := args |}
  end.

Definition storage_getAddress (name : string) (c : Contract) (sha3 : string) : M string :=
  λ st, (chain_getAddress W (trace st) c sha3, record_event (EvGetAddress name c sha3) st).

Definition storage_getString (name : option string) (c : Contract) (sha3 : string) : M string :=
  λ st, (chain_getString W (trace st) c sha3, record_event (EvGetString name c sha3) st).

(** The recursion depth left is [fuel]; every method call takes one
    frame, and running out of frames is Python's [RecursionError]. *)
Fixpoint get_address_by_name (fuel : nat) (name : string) {struct fuel} : M string :=
  match fuel with
  | O => raise RecursionError
  | S fuel =>
      cached ADDRESS_CACHE set_ADDRESS_CACHE name
        (λ st,
          (* manual overwrite at init *)
          match Bidict.get name (addresses st) with
          | Some address => (Ok address, st)
          | None => uncached_get_address_by_name fuel name st
          end)
  end

with uncached_get_address_by_name (fuel : nat) (name : string) {struct fuel} : M string :=
  match fuel with
  | O => raise RecursionError
  | S fuel =>
      let! sha3 := lift (soliditySha3 ["string"; "string"]
                                      [Some "contract.address"; Some name]) in
      let! storage := get_contract_by_name fuel "rocketStorage" in
      let! address := storage_getAddress name storage sha3 in
      let! n := lift (toInt address) in
      if n =? 0
      then raise (Exception ("No address found for " ++ name ++ " Contract"))
      else
        let! _ := addresses_setitem name address in
        ret address
  end

with get_abi_by_name (fuel : nat) (name : option string) {struct fuel} : M string :=
  match fuel with
  | O => raise RecursionError
  | S fuel =>
      cached ABI_CACHE set_ABI_CACHE name (uncached_get_abi_by_name fuel name)
  end

with uncached_get_abi_by_name (fuel : nat) (name : option string) {struct fuel} : M string :=
  match fuel with
  | O => raise RecursionError
  | S fuel =>
      let! sha3 := lift (soliditySha3 ["string"; "string"] [Some "contract.abi"; name]) in
      let! storage := get_contract_by_name fuel "rocketStorage" in
      let! compressed_string := storage_getString name storage sha3 in
      if negb (str_truthy compressed_string)
      then raise (Exception ("No abi found for " ++ pystr name ++ " Contract"))
      else lift (decode_abi W compressed_string)
  end

with assemble_contract (fuel : nat) (name : option string) (address : pyval)
       (mainnet : option bool) {struct fuel} : M Contract :=
  match fuel with
  | O => raise RecursionError
  | S fuel =>
      cached CONTRACT_CACHE set_CONTRACT_CACHE (name, address, mainnet)
        (let! abi :=
           match file W ("./contracts/" ++ pystr name ++ ".abi.json") with
           | Some contents =>
               if str_truthy contents then ret contents
               else get_abi_by_name fuel name
           | None => get_abi_by_name fuel name
           end in
         lift (eth_contract (default false mainnet) address abi))
  end

with get_contract_by_name (fuel : nat) (name : string) {struct fuel} : M Contract :=
  match fuel with
  | O => raise RecursionError
  | S fuel =>
      let! address := get_address_by_name fuel name in
      assemble_contract fuel (Some name) (VStr address) None
  end.

(** [self.addresses.inverse.get(address, None)]; the registry holds
    strings only, so no other value is found. *)
Definition get_name_by_address (address : pyval) : M (option string) := λ st,
  match address with
  | VStr a => (Ok (Bidict.inverse_get a (addresses st)), st)
  | _ => (Ok None, st)
  end.

Definition get_contract_by_address (fuel : nat) (address : pyval) : M Contract :=
  match fuel with
  | O => raise RecursionError
  | S fuel =>
      let! name := get_name_by_address address in
      assemble_contract fuel name address None
  end.

(** [for name, address in cfg[...].items(): self.addresses[name] = address] *)
Fixpoint seed_addresses (items : list (string * string)) : M unit :=
  match items with
  | [] => ret tt
  | (name, address) :: items' =>
      let! _ := addresses_setitem name address in
      seed_addresses items'
  end.

Definition flush : M unit := λ st,
  let st := set_CONTRACT_CACHE [] st in
  let st := set_ABI_CACHE [] st in
  let st := set_ADDRESS_CACHE [] st in
  let st := set_addresses Bidict.empty st in
  let st := set_multicall (is_ok (multicall_init W)) st in
  seed_addresses (manual_addresses W) st.

(** [parts = path.split("."); if len(parts) != 2: raise ...;
    name, function = parts], shared by [estimate_gas_for_call] and
    [get_function]. *)
Definition split_path (path : string) : result (string * string) :=
  let parts := split "." path in
  match parts with
  | [name; function] => Ok (name, function)
  | _ => Err (Exception ("Invalid contract path: Invalid part count: have "
                         ++ pretty (length parts) ++ ", want 2"))
  end.

Definition estimate_gas_for_call (fuel : nat) (path : string) (args : list pyval)
    (block : pyval) : M pyval :=
  match fuel with
  | O => raise RecursionError
  | S fuel =>
      let! '(name, function) := lift (split_path path) in
      let! contract := get_contract_by_name fuel name in
      let! f := lift (bind_function contract function args) in
      λ st, (chain_estimateGas W (trace st) f (2 ^ 32) block,
             record_event (EvEstimateGas f (2 ^ 32) block) st)
  end.

Definition get_function (fuel : nat) (path : string) (args : list pyval)
    (address : pyval) (mainnet : bool) : M BoundCall :=
  match fuel with
  | O => raise RecursionError
  | S fuel =>
      let! '(name, function) := lift (split_path path) in
      let! address :=
        if negb (truthy address)
        then let! a := get_address_by_name fuel name in ret (VStr a)
        else ret address in
      let! contract := assemble_contract fuel (Some name) address (Some mainnet) in
      lift (bind_function contract function args)
  end.

Definition call (fuel : nat) (path : string) (args : list pyval) (block : pyval)
    (address : pyval) (mainnet : bool) : M pyval :=
  match fuel with
  | O => raise RecursionError
  | S fuel =>
      let! f := get_function fuel path args address mainnet in
      λ st, (chain_call W (trace st) f block, record_event (EvCall f block) st)
  end.

Definition replay_params (tnx : Transaction) : CallParams :=
  {| cp_from := tx_from tnx; cp_to := tx_to tnx; cp_data := tx_input tnx;
     cp_gas := tx_gas tnx; cp_gasPrice := tx_gasPrice tnx; cp_value := tx_value tnx |}.

Definition get_revert_reason (tnx : Transaction) : M (option string) := λ st,
  let st' := record_event (EvEthCall (replay_params tnx) (tx_blockNumber tnx)) st in
  match eth_call W (trace st) (replay_params tnx) (tx_blockNumber tnx) with
  | RaisedContractLogicError args => (Ok (Some (String.concat ", " args)), st')
  | RaisedValueError code =>
      if code =? -32000 then (Ok (Some "Out of gas"), st')
      else (Ok (Some "Hidden Error"), st')
  | RaisedOther e => (Err e, st')
  | Returned _ => (Ok None, st')
  end.

(** [events.DepositEvent().processReceipt(receipt)] with the default
    [errors=WARN]: every log of the receipt is decoded, in order; a log
    that is not this event is reported with [warnings.warn] and left out,
    and any other exception of the decoder ends the call. *)
Fixpoint processReceipt (c : Contract) (entries : list LogEntry) : M (list (list byte)) :=
  match entries with
  | [] => ret []
  | entry :: entries' =>
      match decode_DepositEvent W c entry with
      | Decoded pubkey =>
          let! rest := processReceipt c entries' in
          ret (pubkey :: rest)
      | Mismatched =>
          let! _ := warn "The log encountered an error during processing. It has been discarded." in
          processReceipt c entries'
      | DecodeRaised e => raise e
      end
  end.

(** The [pubkey] of a log that decodes as the event. *)
Definition decoded_pubkey (c : Contract) (entry : LogEntry) : option (list byte) :=
  match decode_DepositEvent W c entry with
  | Decoded pubkey => Some pubkey
  | _ => None
  end.

(** The exception of the decoder that a log lets through, if any. *)
Definition decode_raises (c : Contract) (entry : LogEntry) : option exn :=
  match decode_DepositEvent W c entry with
  | DecodeRaised e => Some e
  | _ => None
  end.

(** [with warnings.catch_warnings(): warnings.simplefilter("ignore"); ...]:
    the filter is saved, set to ignore, and restored on the way out,
    also when the body raises. *)
Definition catch_warnings_ignore {A} (body : M A) : M A := λ st,
  let saved := warn_filter st in
  let '(r, st') := body (set_warn_filter FilterIgnore st) in
  (r, set_warn_filter saved st').

Definition get_pubkey_using_transaction (fuel : nat) (receipt : Receipt) : M (option string) :=
  match fuel with
  | O => raise RecursionError
  | S fuel =>
      let! processed_logs :=
        catch_warnings_ignore
          (let! deposit := get_contract_by_name fuel "casperDeposit" in
           processReceipt deposit (logs receipt)) in
      (* attempt to retrieve the pubkey *)
      match processed_logs with
      | pubkey :: _ => ret (Some (bytes_hex pubkey))
      | [] => ret None
      end
  end.

End methods.

(** ** Operations between two flushes, invariants *)

(** The public methods of the resolver apart from [flush].  The two
    [uncached_] helpers are public as well: besides being reached through
    their cached wrappers they can be called directly, which is what the
    last two operations are.  The statistics helpers ([get_minipools],
    [get_dai_eth_price], ...) act on the resolver as sequences of
    [call]. *)
Inductive op :=
| OpGetAddressByName (name : string)
| OpGetAbiByName (name : option string)
| OpAssembleContract (name : option string) (address : pyval) (mainnet : option bool)
| OpGetNameByAddress (address : pyval)
| OpGetContractByName (name : string)
| OpGetContractByAddress (address : pyval)
| OpEstimateGasForCall (path : string) (args : list pyval) (block : pyval)
| OpGetFunction (path : string) (args : list pyval) (address : pyval) (mainnet : bool)
| OpCall (path : string) (args : list pyval) (block : pyval) (address : pyval) (mainnet : bool)
| OpGetRevertReason (tnx : Transaction)
| OpGetPubkeyUsingTransaction (receipt : Receipt)
| OpUncachedGetAddressByName (name : string)
| OpUncachedGetAbiByName (name : option string).

(** A direct call of [uncached_get_address_by_name]: the one operation
    that can replace the address of a registered name, which it does
    without touching the address cache. *)
Definition direct_lookup (o : op) : bool :=
  match o with
  | OpUncachedGetAddressByName _ => true
  | _ => false
  end.

(** Operations among which [uncached_get_address_by_name] is not called
    directly. *)
Definition no_direct_lookup (os : list (nat * op)) : Prop :=
  Forall (λ x, direct_lookup x.2 = false) os.

(** Names whose address was requested from the storage contract. *)
Fixpoint address_lookups (t : list event) : list string :=
  match t with
  | [] => []
  | EvGetAddress name _ _ :: t' => name :: address_lookups t'
  | _ :: t' => address_lookups t'
  end.

(** How often the address of [name] was requested. *)
Definition lookup_count (name : string) (t : list event) : nat :=
  length (filter (λ n, n = name) (address_lookups t)).

Section runs.
Variable W : World.

(** The state an operation leaves behind, whether it returns or raises. *)
Definition run_op (fuel : nat) (o : op) (st : RocketPool) : RocketPool :=
  match o with
  | OpGetAddressByName name => snd (get_address_by_name W fuel name st)
  | OpGetAbiByName name => snd (get_abi_by_name W fuel name st)
  | OpAssembleContract name address mainnet =>
      snd (assemble_contract W fuel name address mainnet st)
  | OpGetNameByAddress address => snd (get_name_by_address address st)
  | OpGetContractByName name => snd (get_contract_by_name W fuel name st)
  | OpGetContractByAddress address => snd (get_contract_by_address W fuel address st)
  | OpEstimateGasForCall path args block =>
      snd (estimate_gas_for_call W fuel path args block st)
  | OpGetFunction path args address mainnet =>
      snd (get_function W fuel path args address mainnet st)
  | OpCall path args block address mainnet =>
      snd (call W fuel path args block address mainnet st)
  | OpGetRevertReason tnx => snd (get_revert_reason W tnx st)
  | OpGetPubkeyUsingTransaction receipt =>
      snd (get_pubkey_using_transaction W fuel receipt st)
  | OpUncachedGetAddressByName name => snd (uncached_get_address_by_name W fuel name st)
  | OpUncachedGetAbiByName name => snd (uncached_get_abi_by_name W fuel name st)
  end.

(** A sequence of operations, each with its own recursion depth. *)
Fixpoint run_ops (os : list (nat * op)) (st : RocketPool) : RocketPool :=
  match os with
  | [] => st
  | (fuel, o) :: os' => run_ops os' (run_op fuel o st)
  end.

(** Every state the single resolver object can be in: whatever [flush]
    leaves (at construction or later, also when seeding raises), followed
    by any of the operations. *)
Inductive possible : RocketPool → Prop :=
| possible_flush st : possible (snd (flush W st))
| possible_op fuel o st : possible st → possible (run_op fuel o st).

(** The states reached when address lookups go through
    [get_address_by_name]: whatever [flush] leaves, followed by operations
    other than a direct call of [uncached_get_address_by_name].  These are
    the states in which the address cache agrees with the registry. *)
Inductive reachable : RocketPool → Prop :=
| reachable_flush st : reachable (snd (flush W st))
| reachable_op fuel o st :
    direct_lookup o = false → reachable st → reachable (run_op fuel o st).

Definition abi_path (name : option string) : string :=
  "./contracts/" ++ pystr name ++ ".abi.json".

(** What holds of the registry and the caches in every reachable state;
    a direct call of [uncached_get_address_by_name] can break the second
    part. *)
Record wf (st : RocketPool) : Prop := {
  wf_consistent : Bidict.consistent (addresses st);
  wf_address_cache : ∀ name address,
    (name, address) ∈ ADDRESS_CACHE st →
    Bidict.fwdm (addresses st) !! name = Some address;
  wf_contract_cache : ∀ name address mainnet c,
    ((name, address, mainnet), c) ∈ CONTRACT_CACHE st →
    c_address c = address ∧ c_mainnet c = default false mainnet ∧
    ∀ contents, file W (abi_path name) = Some contents → contents ≠ "" →
                c_abi c = contents
}.

End runs.

(** ** The claims as the specification words them, where the code differs *)

(** [set(name, address)] as the specification describes it: entries that
    clash with the new pair are removed, then the pair is inserted. *)
Definition spec_set (name address : string) (b : Bidict.t) : Bidict.t :=
  let fwd := match Bidict.invm b !! address with
             | Some oldname => delete oldname (Bidict.fwdm b)
             | None => Bidict.fwdm b
             end in
  let inv := match Bidict.fwdm b !! name with
             | Some oldaddress => delete oldaddress (Bidict.invm b)
             | None => Bidict.invm b
             end in
  {| Bidict.fwdm := <[name := address]> fwd; Bidict.invm := <[address := name]> inv |}.

(** A path made of exactly two non-empty parts. *)
Definition two_nonempty_parts (path : string) : Prop :=
  ∃ name function, split "." path = [name; function] ∧ name ≠ "" ∧ function ≠ "".

(** Number of dots in a path. *)
Fixpoint count_dots (s : string) : nat :=
  match s with
  | EmptyString => 0
  | String c s' => if decide (c = "."%char) then S (count_dots s') else count_dots s'
  end.

(** ** Vocabulary of the proofs *)

(** The claim as the specification words it: the statement
    [self.addresses[name] = address] always goes through and leaves the
    registry the specification's [set] describes. *)
Definition insert_overwrites (name address : string) (st : RocketPool) : Prop :=
  ∃ st', addresses_setitem name address st = (Ok tt, st') ∧
         addresses st' = spec_set name address (addresses st) ∧
         Bidict.get name (addresses st') = Some address ∧
         Bidict.inverse_get address (addresses st') = Some name.

(** Seeding touches the registry only. *)
Definition same_but_addresses (st st' : RocketPool) : Prop :=
  ADDRESS_CACHE st' = ADDRESS_CACHE st ∧ ABI_CACHE st' = ABI_CACHE st ∧
  CONTRACT_CACHE st' = CONTRACT_CACHE st ∧ multicall st' = multicall st ∧
  warn_filter st' = warn_filter st ∧ shown_warnings st' = shown_warnings st ∧
  trace st' = trace st.

Section vocabulary.
Variable W : World.

(** [grows allowed st st']: the invariant is kept, the registry only
    gains entries, and among the new chain requests there is either no
    address lookup, and then the registry is as it was, or exactly one,
    for a name in [allowed] that was not registered (and is not the
    storage contract itself). *)
Definition grows (allowed : list string) (st st' : RocketPool) : Prop :=
  (wf W st → wf W st') ∧
  Bidict.fwdm (addresses st) ⊆ Bidict.fwdm (addresses st') ∧
  ∃ new, trace st' = (new ++ trace st)%list ∧
    ((address_lookups new = [] ∧ addresses st' = addresses st) ∨
     ∃ n, address_lookups new = [n] ∧ n ∈ allowed ∧ n ≠ "rocketStorage" ∧
          Bidict.fwdm (addresses st) !! n = None).

(** Any number of operations: the invariant is kept, the registry only
    gains entries, and no address is looked up for a name that was
    registered at the start. *)
Definition evolves (st st' : RocketPool) : Prop :=
  (wf W st → wf W st') ∧
  Bidict.fwdm (addresses st) ⊆ Bidict.fwdm (addresses st') ∧
  ∃ new, trace st' = (new ++ trace st)%list ∧
         ∀ n, n ∈ address_lookups new → Bidict.fwdm (addresses st) !! n = None.

(** What one call of each of the six mutually recursive methods does to
    the state, whatever it returns. *)
Definition resolution_grows (fuel : nat) : Prop :=
  (∀ name st r st',
     get_address_by_name W fuel name st = (r, st') →
     grows [name] st st' ∧
     (wf W st → ∀ a, r = Ok a → Bidict.fwdm (addresses st') !! name = Some a))
  ∧ (∀ name st r st',
       name ≠ "rocketStorage" → Bidict.fwdm (addresses st) !! name = None →
       uncached_get_address_by_name W fuel name st = (r, st') →
       grows [name] st st' ∧
       (∀ a, r = Ok a → Bidict.fwdm (addresses st') !! name = Some a))
  ∧ (∀ name st r st', get_abi_by_name W fuel name st = (r, st') → grows [] st st')
  ∧ (∀ name st r st', uncached_get_abi_by_name W fuel name st = (r, st') → grows [] st st')
  ∧ (∀ name address mainnet st r st',
       assemble_contract W fuel name address mainnet st = (r, st') → grows [] st st')
  ∧ (∀ name st r st',
       get_contract_by_name W fuel name st = (r, st') → grows [name] st st').

(** The resolution methods leave the warnings alone. *)
Definition same_warnings (st st' : RocketPool) : Prop :=
  warn_filter st' = warn_filter st ∧ shown_warnings st' = shown_warnings st.

Definition resolution_quiet (fuel : nat) : Prop :=
  (∀ name st r st', get_address_by_name W fuel name st = (r, st') → same_warnings st st')
  ∧ (∀ name st r st',
       uncached_get_address_by_name W fuel name st = (r, st') → same_warnings st st')
  ∧ (∀ name st r st', get_abi_by_name W fuel name st = (r, st') → same_warnings st st')
  ∧ (∀ name st r st',
       uncached_get_abi_by_name W fuel name st = (r, st') → same_warnings st st')
  ∧ (∀ name address mainnet st r st',
       assemble_contract W fuel name address mainnet st = (r, st') → same_warnings st st')
  ∧ (∀ name st r st', get_contract_by_name W fuel name st = (r, st') → same_warnings st st').

End vocabulary.

(** ** A small deployment, used to run the methods *)

Module Sample.

Definition zero_address : string := "0x0000000000000000000000000000000000000000".
Definition storage_address : string := "0x1d8f8f00cfa6758d7bE78336684788Fb0ee0Fa46".
Definition rpl_address : string := "0xD33526068D116cE69F19A9ee46F0bd304F21A51f".
Definition deposit_address : string := "0x00000000219ab540356cBB839Cbe05303d7705Fa".

(** A stand-in for keccak that keeps its input readable. *)
Definition toy_keccak (types values : list string) : string := String.concat ":" values.

Definition world : World := {|
  manual_addresses := [("rocketStorage", storage_address)];
  multicall_init := Ok tt;
  keccak := toy_keccak;
  file := λ p, if decide (p = "./contracts/rocketStorage.abi.json") then Some "[storage]"
               else if decide (p = "./contracts/empty.abi.json") then Some ""
               else None;
  decode_abi := λ s, Ok ("decoded " ++ s);
  contract_check := λ _ _ _, None;
  bind_check := λ _ _ _, None;
  chain_getAddress := λ _ _ sha3,
    if decide (sha3 = "contract.address:rocketTokenRPL") then Ok rpl_address
    else if decide (sha3 = "contract.address:casperDeposit") then Ok deposit_address
    else if decide (sha3 = "contract.address:rocketVault") then Ok rpl_address
    else Ok zero_address;
  chain_getString := λ _ _ sha3,
    if decide (sha3 = "contract.abi:unknownContract") then Ok "" else Ok "eJw=";
  chain_call := λ _ _ _, Ok (VInt 1);
  chain_estimateGas := λ _ _ _ _, Ok (VInt 21000);
  eth_call := λ _ p _,
    if cp_gas p =? 1 then RaisedValueError (-32000)
    else if cp_gas p =? 2 then RaisedValueError (-32603)
    else if cp_gas p =? 3 then RaisedContractLogicError ["Insufficient balance"]
    else Returned "0x";
  decode_DepositEvent := λ _ entry,
    if decide (log_data entry = "deposit-a") then Decoded ["a"; "b"]%byte
    else if decide (log_data entry = "deposit-b") then Decoded ["c"]%byte
    else if decide (log_data entry = "deposit-malformed") then DecodeRaised (ExternalError 3)
    else Mismatched
|}.

(** The object before [__init__] has run [flush]. *)
Definition blank : RocketPool := {|
  ADDRESS_CACHE := []; ABI_CACHE := []; CONTRACT_CACHE := [];
  addresses := Bidict.empty; multicall := false;
  warn_filter := FilterError; shown_warnings := []; trace := []
|}.

(** [rp = RocketPool()] *)
Definition rp : RocketPool := snd (flush world blank).

Fixpoint strip_prefix (p s : string) : option string :=
  match p, s with
  | EmptyString, _ => Some s
  | String a p', String b s' => if decide (a = b) then strip_prefix p' s' else None
  | _, _ => None
  end.

(** A deployment with more contracts than a cache holds: the contracts
    are named by numbers, and contract [i] lives at address [0x1i]. *)
Definition crowded_world : World := {|
  manual_addresses := manual_addresses world;
  multicall_init := multicall_init world;
  keccak := keccak world;
  file := file world;
  decode_abi := decode_abi world;
  contract_check := contract_check world;
  bind_check := bind_check world;
  chain_getAddress := λ _ _ sha3,
    match strip_prefix "contract.address:" sha3 with
    | Some (String c rest) =>
        if decide (c = "r"%char) then Ok zero_address else Ok ("0x1" ++ String c rest)
    | _ => Ok zero_address
    end;
  chain_getString := chain_getString world;
  chain_call := chain_call world;
  chain_estimateGas := chain_estimateGas world;
  eth_call := eth_call world;
  decode_DepositEvent := decode_DepositEvent world
|}.

(** [rp.get_address_by_name(str(i))] for [i] from [first], [n] times. *)
Definition numbered (first n : nat) : list (nat * op) :=
  (λ i, (10%nat, OpGetAddressByName (pretty i))) <$> seq first n.

(** Contract 0 is resolved, then the 2048 contracts after it. *)
Definition crowded_first : RocketPool :=
  snd (get_address_by_name crowded_world 10 "0" (snd (flush crowded_world blank))).

Definition crowded : RocketPool := run_ops crowded_world (numbered 1 2048) crowded_first.

End Sample.

(** ** Further methods, deployments and vocabulary *)

(** ** What the methods can do to the state *)

(** The elementary updates: storing into one of the caches (an address
    only for a name that is registered), sending a request, registering a
    pair, changing the warnings filter, showing a warning. *)
Inductive update : RocketPool → RocketPool → Prop :=
| update_address_cache st k v :
    is_Some (Bidict.get k (addresses st)) →
    update st (set_ADDRESS_CACHE (FIFO.setitem k v (ADDRESS_CACHE st)) st)
| update_abi_cache st k v :
    update st (set_ABI_CACHE (FIFO.setitem k v (ABI_CACHE st)) st)
| update_contract_cache st k v :
    update st (set_CONTRACT_CACHE (FIFO.setitem k v (CONTRACT_CACHE st)) st)
| update_event st e :
    update st (record_event e st)
| update_addresses st name address b :
    Bidict.setitem name address (addresses st) = Ok b →
    update st (set_addresses b st)
| update_filter st a :
    update st (set_warn_filter a st)
| update_warning st msg :
    update st (show_warning msg st).

(** Every name of the address cache is a name of the registry. *)
Definition cache_registered (st : RocketPool) : Prop :=
  ∀ name address,
    (name, address) ∈ ADDRESS_CACHE st → is_Some (Bidict.get name (addresses st)).

(** No cache holds more entries than its [maxsize]. *)
Definition within_maxsize (st : RocketPool) : Prop :=
  (length (ADDRESS_CACHE st) ≤ FIFO.maxsize)%nat
  ∧ (length (ABI_CACHE st) ≤ FIFO.maxsize)%nat
  ∧ (length (CONTRACT_CACHE st) ≤ FIFO.maxsize)%nat.

(** What one call of each of the six mutually recursive methods is made
    of. *)
Section vocabulary_updates.
Variable W : World.

Definition resolution_updates (fuel : nat) : Prop :=
  (∀ name st r st', get_address_by_name W fuel name st = (r, st') → rtc update st st')
  ∧ (∀ name st r st', uncached_get_address_by_name W fuel name st = (r, st') → rtc update st st')
  ∧ (∀ name st r st', get_abi_by_name W fuel name st = (r, st') → rtc update st st')
  ∧ (∀ name st r st', uncached_get_abi_by_name W fuel name st = (r, st') → rtc update st st')
  ∧ (∀ name address mainnet st r st',
       assemble_contract W fuel name address mainnet st = (r, st') → rtc update st st')
  ∧ (∀ name st r st', get_contract_by_name W fuel name st = (r, st') → rtc update st st').

End vocabulary_updates.

(** A computation that ends in [RecursionError] and leaves the contract
    cache and the ABI cache alone. *)
Definition overflows {A} (m : M A) (st : RocketPool) : Prop :=
  ∃ st', m st = (Err RecursionError, st')
         ∧ CONTRACT_CACHE st' = CONTRACT_CACHE st ∧ ABI_CACHE st' = ABI_CACHE st.

(** Nothing of the storage contract is in the contract cache or in the
    ABI cache. *)
Definition no_storage_abi (st : RocketPool) : Prop :=
  (∀ address mainnet,
     FIFO.getitem (Some "rocketStorage", address, mainnet) (CONTRACT_CACHE st) = None)
  ∧ FIFO.getitem (Some "rocketStorage") (ABI_CACHE st) = None.

(** ** The minipool queues *)

Section more_methods.
Variable W : World.

(** [[self.call("addressQueueStorage.getItem", key, i) for i in ...]] *)
Fixpoint get_items (fuel : nat) (key : string) (indices : list Z) : M (list pyval) :=
  match indices with
  | [] => ret []
  | i :: indices' =>
      let! item := call W fuel "addressQueueStorage.getItem" [VStr key; VInt i]
                     (VStr "latest") VNone false in
      let! items := get_items fuel key indices' in
      ret (item :: items)
  end.

(** [range(limit)] *)
Definition range (limit : Z) : list Z := Z.of_nat <$> seq 0 (Z.to_nat limit).

(** [min(cap, limit)] is defined between integers only. *)
Definition get_minipools_by_type (fuel : nat) (minipool_type : string) (limit : Z)
  : M (pyval * list pyval) :=
  match fuel with
  | O => raise RecursionError
  | S fuel =>
      let! key := lift (soliditySha3 W ["string"] [Some minipool_type]) in
      let! cap := call W fuel "addressQueueStorage.getLength" [VStr key]
                    (VStr "latest") VNone false in
      match cap with
      | VInt c =>
          let limit := Z.min c limit in
          let! results := get_items fuel key (range limit) in
          ret (cap, results)
      | _ => raise TypeError
      end
  end.

(** The dictionary with the keys ["half"], ["full"] and ["empty"], as
    the triple of its values. *)
Definition get_minipools (fuel : nat) (limit : Z)
  : M ((pyval * list pyval) * (pyval * list pyval) * (pyval * list pyval)) :=
  match fuel with
  | O => raise RecursionError
  | S fuel =>
      let! half := get_minipools_by_type fuel "minipools.available.half" limit in
      let! full := get_minipools_by_type fuel "minipools.available.full" limit in
      let! empty := get_minipools_by_type fuel "minipools.available.empty" limit in
      ret (half, full, empty)
  end.

End more_methods.

(** A deployment without local ABI files. *)
Module Remote.

Definition world : World := {|
  manual_addresses := manual_addresses Sample.world;
  multicall_init := Err (ExternalError 1);
  keccak := keccak Sample.world;
  file := λ _, None;
  decode_abi := decode_abi Sample.world;
  contract_check := contract_check Sample.world;
  bind_check := bind_check Sample.world;
  chain_getAddress := chain_getAddress Sample.world;
  chain_getString := chain_getString Sample.world;
  chain_call := chain_call Sample.world;
  chain_estimateGas := chain_estimateGas Sample.world;
  eth_call := eth_call Sample.world;
  decode_DepositEvent := decode_DepositEvent Sample.world
|}.

Definition rp : RocketPool := snd (flush world Sample.blank).

End Remote.

(** A deployment with a minipool queue of three entries. *)
Module Queues.

Definition world : World := {|
  manual_addresses := manual_addresses Sample.world;
  multicall_init := multicall_init Sample.world;
  keccak := keccak Sample.world;
  file := file Sample.world;
  decode_abi := decode_abi Sample.world;
  contract_check := contract_check Sample.world;
  bind_check := bind_check Sample.world;
  chain_getAddress := λ _ _ sha3,
    if decide (sha3 = "contract.address:addressQueueStorage") then Ok Sample.deposit_address
    else Ok Sample.zero_address;
  chain_getString := chain_getString Sample.world;
  chain_call := λ _ f _,
    if decide (bc_function f = "getLength") then Ok (VInt 3)
    else match bc_args f with
         | [_; VInt i] => Ok (VStr ("minipool " ++ pretty i))
         | _ => Err (ExternalError 2)
         end;
  chain_estimateGas := chain_estimateGas Sample.world;
  eth_call := eth_call Sample.world;
  decode_DepositEvent := decode_DepositEvent Sample.world
|}.

Definition rp : RocketPool := snd (flush world Sample.blank).

End Queues.

(** The crowded deployment during an upgrade of contract 0: the storage
    contract answers the first lookup of its address with [0x10] and every
    later one with [0xdead]; the address [0x10] then belongs to the
    contract [successor]. *)
Module Upgrade.

Definition world : World := {|
  manual_addresses := manual_addresses Sample.crowded_world;
  multicall_init := multicall_init Sample.crowded_world;
  keccak := keccak Sample.crowded_world;
  file := file Sample.crowded_world;
  decode_abi := decode_abi Sample.crowded_world;
  contract_check := contract_check Sample.crowded_world;
  bind_check := bind_check Sample.crowded_world;
  chain_getAddress := λ t c sha3,
    if decide (sha3 = "contract.address:0")
    then if decide (lookup_count "0" t = 0%nat) then Ok "0x10" else Ok "0xdead"
    else if decide (sha3 = "contract.address:successor") then Ok "0x10"
    else chain_getAddress Sample.crowded_world t c sha3;
  chain_getString := chain_getString Sample.crowded_world;
  chain_call := chain_call Sample.crowded_world;
  chain_estimateGas := chain_estimateGas Sample.crowded_world;
  eth_call := eth_call Sample.crowded_world;
  decode_DepositEvent := decode_DepositEvent Sample.crowded_world
|}.

Definition rp : RocketPool := snd (flush world Sample.blank).

(** [rp.get_address_by_name("0")], then
    [rp.uncached_get_address_by_name("0")]. *)
Definition looked_up_twice : RocketPool :=
  run_op world 10 (OpUncachedGetAddressByName "0")
    (snd (get_address_by_name world 10 "0" rp)).

End Upgrade.

(** * Properties *)

(** ** Strings *)

Example split_two : split "." "rocketTokenRPL.getInflationIntervalRate"
                    = ["rocketTokenRPL"; "getInflationIntervalRate"].
Proof. reflexivity. Qed.

Example toInt_zero_address : toInt "0x0000000000000000000000000000000000000000" = Ok 0.
Proof. reflexivity. Qed.

(** ** The registry *)

Section bidict_facts.
Import Bidict.

Lemma setitem_fresh_fwd (key val : string) (b b' : t) :
  fwdm b !! key = None → setitem key val b = Ok b' →
  fwdm b' = <[key := val]> (fwdm b) ∧ invm b' = <[val := key]> (invm b) ∧
  invm b !! val = None.
Proof.
  intros Hk. unfold setitem. rewrite Hk.
  destruct (invm b !! val) eqn:Hv; [discriminate|].
  intros [= <-]. done.
Qed.

Lemma setitem_consistent (key val : string) (b b' : t) :
  consistent b → setitem key val b = Ok b' → consistent b'.
Proof.
  intros Hb. unfold setitem.
  destruct (fwdm b !! key) as [oldval|] eqn:Hk;
    destruct (invm b !! val) as [oldkey|] eqn:Hv; try discriminate.
  - destruct (decide (key = oldkey)); [|discriminate]. by intros [= <-].
  - intros [= <-]. intros k v. simpl.
    assert (Hov : invm b !! oldval = Some key) by by apply Hb.
    assert (oldval ≠ val) by congruence.
    destruct (decide (k = key)) as [->|Hne].
    + rewrite lookup_insert_eq. split.
      * intros [= <-]. rewrite lookup_delete_ne by done. by rewrite lookup_insert_eq.
      * destruct (decide (v = oldval)) as [->|]; [by rewrite lookup_delete_eq|].
        rewrite lookup_delete_ne by done.
        destruct (decide (v = val)) as [->|]; [done|].
        rewrite lookup_insert_ne by done. intros Hi. apply Hb in Hi. congruence.
    + rewrite lookup_insert_ne by done. split.
      * intros Hf. assert (Hi : invm b !! v = Some k) by by apply Hb.
        assert (v ≠ oldval) by congruence. assert (v ≠ val) by congruence.
        rewrite lookup_delete_ne by done. by rewrite lookup_insert_ne.
      * destruct (decide (v = oldval)) as [->|]; [by rewrite lookup_delete_eq|].
        rewrite lookup_delete_ne by done.
        destruct (decide (v = val)) as [->|].
        -- rewrite lookup_insert_eq. congruence.
        -- rewrite lookup_insert_ne by done. apply Hb.
  - intros [= <-]. intros k v. simpl.
    destruct (decide (k = key)) as [->|Hne].
    + rewrite lookup_insert_eq. split.
      * intros [= <-]. by rewrite lookup_insert_eq.
      * destruct (decide (v = val)) as [->|]; [done|].
        rewrite lookup_insert_ne by done. intros Hi. apply Hb in Hi. congruence.
    + rewrite lookup_insert_ne by done. split.
      * intros Hf. assert (Hi : invm b !! v = Some k) by by apply Hb.
        assert (v ≠ val) by congruence. by rewrite lookup_insert_ne.
      * destruct (decide (v = val)) as [->|].
        -- rewrite lookup_insert_eq. congruence.
        -- rewrite lookup_insert_ne by done. apply Hb.
Qed.

Lemma setitem_lookup (key val : string) (b b' : t) :
  consistent b → setitem key val b = Ok b' →
  get key b' = Some val ∧ inverse_get val b' = Some key.
Proof.
  intros Hb. unfold setitem, get, inverse_get.
  destruct (fwdm b !! key) as [oldval|] eqn:Hk;
    destruct (invm b !! val) as [oldkey|] eqn:Hv; try discriminate.
  - destruct (decide (key = oldkey)) as [<-|]; [|discriminate]. intros [= <-].
    split; [|done]. by apply Hb.
  - intros [= <-]. simpl. rewrite lookup_insert_eq. split; [done|].
    assert (Hov : invm b !! oldval = Some key) by by apply Hb.
    assert (oldval ≠ val) by congruence.
    rewrite lookup_delete_ne by done. by rewrite lookup_insert_eq.
  - intros [= <-]. simpl. by rewrite !lookup_insert_eq.
Qed.

Lemma setitem_spec_set (key val : string) (b b' : t) :
  consistent b → setitem key val b = Ok b' → b' = spec_set key val b.
Proof.
  intros Hb. unfold setitem, spec_set.
  destruct (fwdm b !! key) as [oldval|] eqn:Hk;
    destruct (invm b !! val) as [oldkey|] eqn:Hv; try discriminate.
  - destruct (decide (key = oldkey)) as [<-|]; [|discriminate]. intros [= <-].
    assert (oldval = val) as -> by (apply Hb in Hv; congruence).
    destruct b as [f i]; simpl in *. f_equal.
    + rewrite insert_delete_eq. by rewrite insert_id.
    + rewrite insert_delete_eq. by rewrite insert_id.
  - intros [= <-]. f_equal.
    assert (Hov : invm b !! oldval = Some key) by by apply Hb.
    assert (oldval ≠ val) by congruence.
    by rewrite delete_insert_ne.
  - by intros [= <-].
Qed.

Lemma setitem_error (key val : string) (b : t) (e : exn) :
  consistent b → setitem key val b = Err e →
  ∃ other, other ≠ key ∧ inverse_get val b = Some other.
Proof.
  intros Hb. unfold setitem, inverse_get.
  destruct (fwdm b !! key) as [oldval|] eqn:Hk;
    destruct (invm b !! val) as [oldkey|] eqn:Hv; try discriminate.
  - destruct (decide (key = oldkey)); [discriminate|]. intros _. by exists oldkey.
  - intros _. exists oldkey. split; [|done]. intros ->. apply Hb in Hv. congruence.
Qed.

Lemma setitem_ok (key val : string) (b : t) :
  consistent b →
  (inverse_get val b = None ∨ inverse_get val b = Some key) →
  ∃ b', setitem key val b = Ok b'.
Proof.
  intros Hb. unfold setitem, inverse_get.
  destruct (fwdm b !! key) as [oldval|] eqn:Hk;
    destruct (invm b !! val) as [oldkey|] eqn:Hv; intros [?|?]; simplify_eq; eauto.
  - rewrite decide_True by done. eauto.
  - apply Hb in Hv. congruence.
Qed.

Lemma empty_consistent : consistent empty.
Proof. intros k v. unfold empty; simpl. by rewrite !lookup_empty. Qed.

(** An insertion that goes through never removes a name, and the name
    it was made for is registered afterwards. *)
Lemma setitem_keeps_names (key val : string) (b b' : t) (n : string) :
  setitem key val b = Ok b' →
  is_Some (get n b) ∨ n = key → is_Some (get n b').
Proof.
  unfold setitem, get.
  destruct (fwdm b !! key) as [oldval|] eqn:Hk;
    destruct (invm b !! val) as [oldkey|] eqn:Hv; try discriminate.
  - destruct (decide (key = oldkey)); [|discriminate]. intros [= <-].
    intros [?| ->]; [done|]. by rewrite Hk.
  - intros [= <-]. simpl. intros [?| ->]; [|by rewrite lookup_insert_eq].
    destruct (decide (n = key)) as [->|]; [by rewrite lookup_insert_eq|].
    by rewrite lookup_insert_ne.
  - intros [= <-]. simpl. intros [?| ->]; [|by rewrite lookup_insert_eq].
    destruct (decide (n = key)) as [->|]; [by rewrite lookup_insert_eq|].
    by rewrite lookup_insert_ne.
Qed.

End bidict_facts.

Section registry_insert.
Import Bidict.

Lemma addresses_setitem_inv (name address : string) (st : RocketPool) r st' :
  addresses_setitem name address st = (r, st') →
  (∃ b, r = Ok tt ∧ setitem name address (addresses st) = Ok b ∧ st' = set_addresses b st)
  ∨ (∃ e, r = Err e ∧ setitem name address (addresses st) = Err e ∧ st' = st).
Proof.
  unfold addresses_setitem.
  destruct (setitem name address (addresses st)) as [b|e] eqn:Hs; intros [= <- <-]; eauto.
Qed.

(** C1, as stated, fails: with [rocketTokenRPL] registered at an address,
    recording the same address under [rocketVault] is refused with bidict's
    [ValueDuplicationError]; the old entry is not removed and the new name
    is not inserted. *)
Lemma registry_insert_same_address_refused :
  let st := snd (get_address_by_name Sample.world 10 "rocketTokenRPL" Sample.rp) in
  ¬ insert_overwrites "rocketVault" Sample.rpl_address st
  ∧ get_address_by_name Sample.world 10 "rocketVault" st
    = (Err (ValueDuplicationError Sample.rpl_address),
       record_event (EvGetAddress "rocketVault"
                       {| c_mainnet := false; c_address := VStr Sample.storage_address;
                          c_abi := "[storage]" |}
                       "contract.address:rocketVault") st)
  ∧ inverse_get Sample.rpl_address (addresses st) = Some "rocketTokenRPL".
Proof.
  split; [|split].
  - intros (st' & Hs & _). vm_compute in Hs. discriminate.
  - vm_compute. reflexivity.
  - vm_compute. reflexivity.
Qed.

(** C1 (amended): on a registry that is a bijection, the statement
    [self.addresses[name] = address] either succeeds, and then the
    registry is the one the specification's [set] describes (a prior
    address of [name] is dropped), it is again a bijection, and
    [addressOf(name) = address], [nameOf(address) = name]; or it raises,
    which happens exactly when [address] is registered under a different
    name, and then the registry is left as it was. *)
Theorem registry_insert_bijection (name address : string) (st : RocketPool) :
  consistent (addresses st) →
  match addresses_setitem name address st with
  | (Ok _, st') =>
      (inverse_get address (addresses st) = None
       ∨ inverse_get address (addresses st) = Some name)
      ∧ addresses st' = spec_set name address (addresses st)
      ∧ consistent (addresses st')
      ∧ get name (addresses st') = Some address
      ∧ inverse_get address (addresses st') = Some name
  | (Err _, st') =>
      st' = st
      ∧ ∃ other, other ≠ name ∧ inverse_get address (addresses st) = Some other
  end.
Proof.
  intros Hb.
  destruct (addresses_setitem name address st) as [r st'] eqn:Hs.
  apply addresses_setitem_inv in Hs as [(b & -> & Hs & ->)|(e & -> & Hs & ->)].
  - simpl. split.
    + destruct (inverse_get address (addresses st)) as [other|] eqn:Hi; [|by left].
      right. destruct (decide (other = name)) as [->|Hne]; [done|].
      exfalso. unfold setitem, inverse_get in *. rewrite Hi in Hs.
      destruct (fwdm (addresses st) !! name); [|discriminate].
      rewrite decide_False in Hs by done. discriminate.
    + split; [by apply setitem_spec_set|].
      split; [by eapply setitem_consistent|].
      by eapply setitem_lookup.
  - split; [done|]. by eapply setitem_error.
Qed.

(** The amended claim at work: a first insertion into the empty registry. *)
Lemma registry_insert_bijection_witness :
  consistent (addresses Sample.blank) ∧
  get "rocketVault"
      (addresses (snd (addresses_setitem "rocketVault" Sample.rpl_address Sample.blank)))
  = Some Sample.rpl_address.
Proof.
  split; [exact empty_consistent|].
  pose proof (registry_insert_bijection "rocketVault" Sample.rpl_address Sample.blank
                empty_consistent) as H.
  destruct (addresses_setitem "rocketVault" Sample.rpl_address Sample.blank) as [[u|e] st'] eqn:Hs.
  - simpl. tauto.
  - exfalso. vm_compute in Hs. discriminate.
Defined.

End registry_insert.

(** ** flush *)

Section flush_facts.
Variable W : World.
Import Bidict.

Lemma seed_addresses_frame items st r st' :
  seed_addresses items st = (r, st') →
  same_but_addresses st st' ∧ (consistent (addresses st) → consistent (addresses st')).
Proof.
  revert st. induction items as [|[name address] items IH]; intros st.
  - cbn. unfold ret. intros [= <- <-]. split; [by unfold same_but_addresses|done].
  - simpl. unfold bind.
    destruct (addresses_setitem name address st) as [r1 st1] eqn:Hs.
    apply addresses_setitem_inv in Hs as [(b & -> & Hs & ->)|(e & -> & Hs & ->)].
    + intros Hrest. apply IH in Hrest as [Hf Hc]. split.
      * destruct Hf as (?&?&?&?&?&?&?). by unfold same_but_addresses.
      * intros Hb. apply Hc. simpl. by eapply setitem_consistent.
    + intros [= <- <-]. split; [by unfold same_but_addresses|done].
Qed.

Lemma seed_addresses_ok items st st' :
  NoDup items.*1 →
  (∀ name, name ∈ items.*1 → fwdm (addresses st) !! name = None) →
  seed_addresses items st = (Ok tt, st') →
  ∀ name address,
    get name (addresses st') = Some address ↔
    get name (addresses st) = Some address ∨ (name, address) ∈ items.
Proof.
  revert st. induction items as [|[n a] items IH]; intros st Hnd Hfresh.
  - cbn. unfold ret. intros [= <-] name address. split; [by left|]. intros [?|Hin]; [done|].
    by apply elem_of_nil in Hin.
  - simpl. unfold bind.
    destruct (addresses_setitem n a st) as [r1 st1] eqn:Hs.
    apply addresses_setitem_inv in Hs as [(b & -> & Hs & ->)|(e & -> & Hs & ->)];
      [|discriminate].
    simpl in Hnd. apply NoDup_cons in Hnd as [Hn Hnd].
    assert (Hk : fwdm (addresses st) !! n = None) by (apply Hfresh; simpl; left).
    destruct (setitem_fresh_fwd _ _ _ _ Hk Hs) as (Hf & _ & _).
    intros Hrest name address.
    assert (Hfresh' : ∀ k, k ∈ items.*1 →
                           fwdm (addresses (set_addresses b st)) !! k = None).
    { intros k Hkin. simpl. rewrite Hf.
      rewrite lookup_insert_ne by (intros ->; done).
      apply Hfresh. simpl. by right. }
    rewrite (IH _ Hnd Hfresh' Hrest).
    unfold get. simpl. rewrite Hf. rewrite elem_of_cons.
    destruct (decide (name = n)) as [->|Hne].
    + rewrite lookup_insert_eq. split.
      * intros [[= <-]|Hin]; [right; by left|]. right; by right.
      * intros [Hl|[Heq|Hin]]; [congruence|left; congruence|].
        exfalso. apply Hn. apply list_elem_of_fmap. by exists (n, address).
    + rewrite lookup_insert_ne by done. split.
      * intros [?|?]; [by left|right; by right].
      * intros [?|[Heq|?]]; [by left|congruence|by right].
Qed.

Lemma flush_caches st r st' :
  flush W st = (r, st') →
  ADDRESS_CACHE st' = [] ∧ ABI_CACHE st' = [] ∧ CONTRACT_CACHE st' = [] ∧
  consistent (addresses st').
Proof.
  unfold flush. intros Hs. apply seed_addresses_frame in Hs as [Hf Hc].
  destruct Hf as (Ha & Hb & Hcc & _). simpl in *.
  split; [done|]. split; [done|]. split; [done|]. apply Hc, empty_consistent.
Qed.

End flush_facts.

(** C2: when [flush()] completes, the address cache, the ABI cache and
    the contract cache are empty, the registry holds exactly the
    configured manual overrides, and a name that is not an override is
    resolved by the uncached chain lookup on its next access (neither the
    cache nor the registry answers for it). *)
Theorem flush_resets_everything (W : World) (st st' : RocketPool) :
  NoDup (manual_addresses W).*1 →
  flush W st = (Ok tt, st') →
  ADDRESS_CACHE st' = [] ∧ ABI_CACHE st' = [] ∧ CONTRACT_CACHE st' = []
  ∧ (∀ name address,
       Bidict.get name (addresses st') = Some address ↔
       (name, address) ∈ manual_addresses W)
  ∧ (∀ fuel name,
       name ∉ (manual_addresses W).*1 →
       fst (get_address_by_name W (S fuel) name st')
       = fst (uncached_get_address_by_name W fuel name st')).
Proof.
  intros Hnd Hflush.
  destruct (flush_caches W _ _ _ Hflush) as (Ha & Hb & Hc & _).
  assert (Hreg : ∀ name address,
             Bidict.get name (addresses st') = Some address ↔
             (name, address) ∈ manual_addresses W).
  { intros name address. unfold flush in Hflush.
    rewrite (seed_addresses_ok _ _ _ Hnd (λ k _, lookup_empty k) Hflush).
    unfold Bidict.get. simpl. rewrite lookup_empty. split; [by intros [?|?]|by right]. }
  split; [done|]. split; [done|]. split; [done|]. split; [done|].
  intros fuel name Hname. simpl. unfold cached. rewrite Ha. simpl.
  destruct (Bidict.get name (addresses st')) as [address|] eqn:Hg.
  - exfalso. apply Hname. apply Hreg in Hg. apply list_elem_of_fmap. by exists (name, address).
  - by destruct (uncached_get_address_by_name W fuel name st') as [[a|e] st''].
Qed.

(** [flush] at work on the sample deployment, from a state that has
    resolved [rocketTokenRPL]. *)
Lemma flush_resets_everything_witness :
  let st := snd (get_address_by_name Sample.world 10 "rocketTokenRPL" Sample.rp) in
  ADDRESS_CACHE st ≠ [] ∧
  Bidict.get "rocketTokenRPL" (addresses st) = Some Sample.rpl_address ∧
  ADDRESS_CACHE (snd (flush Sample.world st)) = [] ∧
  Bidict.get "rocketTokenRPL" (addresses (snd (flush Sample.world st))) = None.
Proof.
  assert (Hnd : NoDup (manual_addresses Sample.world).*1).
  { simpl. apply NoDup_singleton. }
  set (st := snd (get_address_by_name Sample.world 10 "rocketTokenRPL" Sample.rp)).
  assert (Hfl : flush Sample.world st = (Ok tt, snd (flush Sample.world st))).
  { vm_compute. reflexivity. }
  destruct (flush_resets_everything Sample.world st _ Hnd Hfl) as (Ha & _ & _ & Hreg & _).
  split; [vm_compute; discriminate|].
  split; [vm_compute; reflexivity|].
  split; [exact Ha|].
  destruct (Bidict.get "rocketTokenRPL" (addresses (snd (flush Sample.world st))))
    as [a|] eqn:Hg; [|reflexivity].
  exfalso. apply Hreg in Hg. simpl in Hg. apply list_elem_of_singleton in Hg. discriminate.
Defined.

(** ** The caches *)

Section fifo_facts.
Context {K V : Type} `{EqDecision K}.
Implicit Types (c : FIFO.t K V) (k : K) (v : V).

Lemma getitem_elem_of k v c : FIFO.getitem k c = Some v → (k, v) ∈ c.
Proof.
  induction c as [|[k' v'] c IH]; simpl; [done|].
  destruct (decide (k = k')) as [->|].
  - intros [= ->]. by left.
  - intros Hg. right. by apply IH.
Qed.

Lemma getitem_None k c : FIFO.getitem k c = None → ∀ v, (k, v) ∉ c.
Proof.
  induction c as [|[k' v'] c IH]; simpl; intros Hg v Hin.
  - by apply elem_of_nil in Hin.
  - destruct (decide (k = k')) as [->|Hne]; [done|].
    apply elem_of_cons in Hin as [[= -> ->]|Hin]; [done|]. by eapply IH.
Qed.

Lemma delitem_elem_of k c x : x ∈ FIFO.delitem k c → x ∈ c.
Proof.
  induction c as [|[k' v'] c IH]; simpl; [done|].
  destruct (decide (k = k')).
  - intros Hin. right. by apply IH.
  - intros [->|Hin]%elem_of_cons; [by left|]. right. by apply IH.
Qed.

Lemma make_room_elem_of c x : x ∈ FIFO.make_room c → x ∈ c.
Proof.
  induction c as [|[k' v'] c IH]; [done|].
  cbn [FIFO.make_room]. destruct (decide _); [|done].
  intros Hin. right. by apply IH.
Qed.

Lemma setitem_elem_of k v c x : x ∈ FIFO.setitem k v c → x = (k, v) ∨ x ∈ c.
Proof.
  unfold FIFO.setitem. destruct (FIFO.getitem k c).
  - intros [Hin|Hin%list_elem_of_singleton]%elem_of_app; [|by left].
    right. by eapply delitem_elem_of.
  - intros [Hin|Hin%list_elem_of_singleton]%elem_of_app; [|by left].
    right. by eapply make_room_elem_of.
Qed.

Lemma setitem_elem_of_new k v c : (k, v) ∈ FIFO.setitem k v c.
Proof.
  unfold FIFO.setitem. destruct (FIFO.getitem k c); apply elem_of_app; right; by left.
Qed.

Lemma make_room_length c : (length (FIFO.make_room c) + 1 ≤ FIFO.maxsize)%nat.
Proof.
  induction c as [|[k' v'] c IH]; [cbn; unfold FIFO.maxsize; lia|].
  cbn [FIFO.make_room]. destruct (decide _); [done|]. lia.
Qed.

(** A full cache drops its oldest entry for a new key, and nothing else. *)
Lemma setitem_evicts_oldest k v k0 v0 c :
  length ((k0, v0) :: c) = FIFO.maxsize →
  FIFO.getitem k ((k0, v0) :: c) = None →
  FIFO.setitem k v ((k0, v0) :: c) = (c ++ [(k, v)])%list.
Proof.
  intros Hlen Hg. unfold FIFO.setitem. rewrite Hg.
  cbn [FIFO.make_room]. rewrite decide_True by lia.
  destruct c as [|[k1 v1] c]; [done|].
  cbn [FIFO.make_room]. rewrite decide_False; [done|]. simpl in *. lia.
Qed.

End fifo_facts.

(** ** How the state evolves between two flushes *)

Section evolution.
Variable W : World.
Import Bidict.

Lemma address_lookups_app t1 t2 :
  address_lookups (t1 ++ t2) = (address_lookups t1 ++ address_lookups t2)%list.
Proof.
  induction t1 as [|e t1 IH]; [done|].
  destruct e; simpl; by rewrite IH.
Qed.

Lemma grows_refl allowed st : grows W allowed st st.
Proof. split; [done|]. split; [done|]. exists []. split; [done|by left]. Qed.

Lemma grows_nil_inv st st' :
  grows W [] st st' →
  addresses st' = addresses st ∧
  ∃ new, trace st' = (new ++ trace st)%list ∧ address_lookups new = [].
Proof.
  intros (_ & _ & new & Ht & [[Hl Ha]|(n & _ & Hn & _)]); [|by apply elem_of_nil in Hn].
  split; [done|]. by exists new.
Qed.

Lemma grows_nil_l allowed st1 st2 st3 :
  grows W [] st1 st2 → grows W allowed st2 st3 → grows W allowed st1 st3.
Proof.
  intros H1 (Hw2 & Hs2 & new2 & Ht2 & Hl2).
  destruct (grows_nil_inv _ _ H1) as (Ha1 & new1 & Ht1 & Hl1).
  destruct H1 as (Hw1 & Hs1 & _).
  split; [auto|]. split; [by etrans|].
  exists (new2 ++ new1)%list. split; [by rewrite Ht2, Ht1, app_assoc|].
  rewrite address_lookups_app, Hl1, app_nil_r.
  destruct Hl2 as [[Hl2 Ha2]|(n & Hl2 & Hn & Hne & Hf)].
  - left. split; [done|congruence].
  - right. exists n. rewrite <- Ha1. done.
Qed.

Lemma grows_nil_r allowed st1 st2 st3 :
  grows W allowed st1 st2 → grows W [] st2 st3 → grows W allowed st1 st3.
Proof.
  intros (Hw1 & Hs1 & new1 & Ht1 & Hl1) H2.
  destruct (grows_nil_inv _ _ H2) as (Ha2 & new2 & Ht2 & Hl2).
  destruct H2 as (Hw2 & Hs2 & _).
  split; [auto|]. split; [by etrans|].
  exists (new2 ++ new1)%list. split; [by rewrite Ht2, Ht1, app_assoc|].
  rewrite address_lookups_app, Hl2. simpl.
  destruct Hl1 as [[Hl1 Ha1]|Hl1]; [left|by right].
  split; [done|congruence].
Qed.

Lemma grows_weaken allowed st st' : grows W [] st st' → grows W allowed st st'.
Proof. intros H. eapply grows_nil_l; [exact H|apply grows_refl]. Qed.

Lemma grows_storage st st' : grows W ["rocketStorage"] st st' → grows W [] st st'.
Proof.
  intros (Hw & Hs & new & Ht & [Hl|(n & _ & Hn & Hne & _)]).
  - split; [done|]. split; [done|]. exists new. split; [done|by left].
  - by apply list_elem_of_singleton in Hn.
Qed.

(** A change that leaves the registry, the address cache and the
    contract cache alone and sends no address lookup. *)
Lemma grows_frame st st' new :
  addresses st' = addresses st → ADDRESS_CACHE st' = ADDRESS_CACHE st →
  CONTRACT_CACHE st' = CONTRACT_CACHE st →
  trace st' = (new ++ trace st)%list → address_lookups new = [] →
  grows W [] st st'.
Proof.
  intros Ha Hc Hcc Ht Hl. split; [|split].
  - intros [H1 H2 H3]. split; rewrite ?Ha, ?Hc, ?Hcc; done.
  - by rewrite Ha.
  - exists new. split; [done|by left].
Qed.

Lemma grows_address_cache st name address :
  (wf W st → fwdm (addresses st) !! name = Some address) →
  grows W [] st (set_ADDRESS_CACHE (FIFO.setitem name address (ADDRESS_CACHE st)) st).
Proof.
  intros Hreg. split; [|split].
  - intros Hwf. destruct (Hwf) as [H1 H2 H3]. split; simpl; [done| |done].
    intros n a [[= -> ->]|Hin]%setitem_elem_of; [by apply Hreg|by apply H2].
  - done.
  - exists []. split; [done|by left].
Qed.

Lemma grows_contract_cache st name address mainnet abi :
  (∀ contents, file W (abi_path name) = Some contents → contents ≠ "" → abi = contents) →
  grows W [] st
    (set_CONTRACT_CACHE
       (FIFO.setitem (name, address, mainnet)
          {| c_mainnet := default false mainnet; c_address := address; c_abi := abi |}
          (CONTRACT_CACHE st)) st).
Proof.
  intros Habi. split; [|split].
  - intros [H1 H2 H3]. split; simpl; [done|done|].
    intros n a m c [[= -> -> -> ->]|Hin]%setitem_elem_of; [done|by apply H3].
  - done.
  - exists []. split; [done|by left].
Qed.

Lemma grows_record_lookup st name c sha3 :
  name ≠ "rocketStorage" → fwdm (addresses st) !! name = None →
  grows W [name] st (record_event (EvGetAddress name c sha3) st).
Proof.
  intros Hne Hf. split; [|split].
  - intros [H1 H2 H3]. by split.
  - done.
  - exists [EvGetAddress name c sha3]. split; [done|]. right. exists name.
    repeat split; try done. by apply list_elem_of_singleton.
Qed.

(** The lookup followed by the registration of its answer. *)
Lemma grows_lookup_insert st name c sha3 address r st' :
  name ≠ "rocketStorage" → fwdm (addresses st) !! name = None →
  addresses_setitem name address (record_event (EvGetAddress name c sha3) st) = (r, st') →
  grows W [name] st st' ∧ (r = Ok tt → fwdm (addresses st') !! name = Some address).
Proof.
  intros Hne Hf Hs.
  apply addresses_setitem_inv in Hs as [(b & -> & Hs & ->)|(e & -> & Hs & ->)];
    [|split; [by apply grows_record_lookup|done]].
  simpl in Hs.
  destruct (setitem_fresh_fwd _ _ _ _ Hf Hs) as (Hfw & Hiv & Hnone).
  split; [|intros _; simpl; rewrite Hfw; apply lookup_insert_eq].
  split; [|split].
  - intros [H1 H2 H3]. split; simpl; [by eapply setitem_consistent| |done].
    intros n a Hin. rewrite Hfw. apply H2 in Hin.
    rewrite lookup_insert_ne; [done|]. intros ->. congruence.
  - simpl. rewrite Hfw. by apply insert_subseteq.
  - exists [EvGetAddress name c sha3]. split; [done|]. right. exists name.
    repeat split; try done. by apply list_elem_of_singleton.
Qed.

End evolution.

(** ** The resolution methods *)

Section resolution.
Variable W : World.
Import Bidict.

(** One frame of each method. *)
Lemma get_address_by_name_S fuel name :
  get_address_by_name W (S fuel) name
  = cached ADDRESS_CACHE set_ADDRESS_CACHE name
      (λ st, match get name (addresses st) with
             | Some address => (Ok address, st)
             | None => uncached_get_address_by_name W fuel name st
             end).
Proof. reflexivity. Qed.

Lemma uncached_get_address_by_name_S fuel name :
  uncached_get_address_by_name W (S fuel) name
  = (let! sha3 := lift (soliditySha3 W ["string"; "string"]
                                     [Some "contract.address"; Some name]) in
     let! storage := get_contract_by_name W fuel "rocketStorage" in
     let! address := storage_getAddress W name storage sha3 in
     let! n := lift (toInt address) in
     if n =? 0
     then raise (Exception ("No address found for " ++ name ++ " Contract"))
     else let! _ := addresses_setitem name address in ret address).
Proof. reflexivity. Qed.

Lemma get_abi_by_name_S fuel name :
  get_abi_by_name W (S fuel) name
  = cached ABI_CACHE set_ABI_CACHE name (uncached_get_abi_by_name W fuel name).
Proof. reflexivity. Qed.

Lemma uncached_get_abi_by_name_S fuel name :
  uncached_get_abi_by_name W (S fuel) name
  = (let! sha3 := lift (soliditySha3 W ["string"; "string"] [Some "contract.abi"; name]) in
     let! storage := get_contract_by_name W fuel "rocketStorage" in
     let! compressed_string := storage_getString W name storage sha3 in
     if negb (str_truthy compressed_string)
     then raise (Exception ("No abi found for " ++ pystr name ++ " Contract"))
     else lift (decode_abi W compressed_string)).
Proof. reflexivity. Qed.

Lemma assemble_contract_S fuel name address mainnet :
  assemble_contract W (S fuel) name address mainnet
  = cached CONTRACT_CACHE set_CONTRACT_CACHE (name, address, mainnet)
      (let! abi :=
         match file W (abi_path name) with
         | Some contents =>
             if str_truthy contents then ret contents else get_abi_by_name W fuel name
         | None => get_abi_by_name W fuel name
         end in
       lift (eth_contract W (default false mainnet) address abi)).
Proof. reflexivity. Qed.

Lemma get_contract_by_name_S fuel name :
  get_contract_by_name W (S fuel) name
  = (let! address := get_address_by_name W fuel name in
     assemble_contract W fuel (Some name) (VStr address) None).
Proof. reflexivity. Qed.

(** Inversion of [bind] and of [cached]. *)
Lemma bind_inv {A B} (m : M A) (k : A → M B) st r st' :
  bind m k st = (r, st') →
  (∃ a st1, m st = (Ok a, st1) ∧ k a st1 = (r, st'))
  ∨ (∃ e, m st = (Err e, st') ∧ r = Err e).
Proof.
  unfold bind. destruct (m st) as [[a|e] st1]; intros Hk; [left; by eauto|right].
  inversion Hk; subst. eauto.
Qed.

Lemma cached_inv {K V} `{EqDecision K}
    (cache : RocketPool → FIFO.t K V) store (k : K) (func : M V) st r st' :
  cached cache store k func st = (r, st') →
  (∃ v, FIFO.getitem k (cache st) = Some v ∧ r = Ok v ∧ st' = st)
  ∨ (FIFO.getitem k (cache st) = None ∧
     ∃ st1, (∃ v, func st = (Ok v, st1) ∧ r = Ok v ∧
                  st' = store (FIFO.setitem k v (cache st1)) st1)
            ∨ (∃ e, func st = (Err e, st1) ∧ r = Err e ∧ st' = st1)).
Proof.
  unfold cached. destruct (FIFO.getitem k (cache st)) as [v|] eqn:Hg.
  - intros [= <- <-]. left. eauto.
  - intros Hf. right. split; [done|].
    destruct (func st) as [[v|e] st1]; injection Hf as <- <-; exists st1; [left|right]; eauto.
Qed.

(** Without an address for [rocketStorage] in the cache or the registry,
    resolving it recurses until the stack is exhausted, and changes
    nothing. *)
Lemma storage_unresolved fuel st :
  FIFO.getitem "rocketStorage" (ADDRESS_CACHE st) = None →
  get "rocketStorage" (addresses st) = None →
  get_address_by_name W fuel "rocketStorage" st = (Err RecursionError, st)
  ∧ uncached_get_address_by_name W fuel "rocketStorage" st = (Err RecursionError, st)
  ∧ get_contract_by_name W fuel "rocketStorage" st = (Err RecursionError, st).
Proof.
  intros Hc Hr. induction fuel as [|fuel (IHa & IHu & IHc)]; [done|].
  split; [|split].
  - rewrite get_address_by_name_S. unfold cached. rewrite Hc, Hr. by rewrite IHu.
  - rewrite uncached_get_address_by_name_S. unfold bind at 1. cbn. unfold bind at 1.
    by rewrite IHc.
  - rewrite get_contract_by_name_S. unfold bind. by rewrite IHa.
Qed.

Lemma resolution_grows_O : resolution_grows W 0.
Proof.
  unfold resolution_grows. split_and!; intros; simpl in *; unfold raise in *; simplify_eq;
    try (split; [apply grows_refl|done]); apply grows_refl.
Qed.

Lemma get_address_by_name_grows fuel :
  resolution_grows W fuel →
  ∀ name st r st',
    get_address_by_name W (S fuel) name st = (r, st') →
    grows W [name] st st' ∧
    (wf W st → ∀ a, r = Ok a → fwdm (addresses st') !! name = Some a).
Proof.
  intros (_ & IHu & _) name st r st'. rewrite get_address_by_name_S.
  intros [(v & Hg & -> & ->)|(Hg & st1 & Hf)]%cached_inv.
  { split; [apply grows_refl|]. intros Hwf a [= <-].
    by apply (wf_address_cache _ _ Hwf), getitem_elem_of. }
  destruct (get name (addresses st)) as [address|] eqn:Hr.
  { destruct Hf as [(v & [= <- <-] & -> & ->)|(e & [=] & _)].
    split; [|by intros _ a [= <-]].
    apply grows_weaken. by apply grows_address_cache. }
  destruct (decide (name = "rocketStorage")) as [->|Hne].
  { destruct (storage_unresolved fuel st Hg Hr) as (_ & Hu & _). rewrite Hu in Hf.
    destruct Hf as [(v & [=] & _)|(e & [= <- <-] & -> & ->)].
    split; [apply grows_refl|done]. }
  destruct Hf as [(v & Hu & -> & ->)|(e & Hu & -> & ->)];
    apply (IHu _ _ _ _ Hne Hr) in Hu as [Hgr Hres]; [|by split].
  split.
  - eapply grows_nil_r; [exact Hgr|]. apply grows_address_cache. intros _. by apply Hres.
  - intros _ a [= <-]. simpl. by apply Hres.
Qed.

Lemma uncached_get_address_by_name_grows fuel :
  resolution_grows W fuel →
  ∀ name st r st',
    name ≠ "rocketStorage" → fwdm (addresses st) !! name = None →
    uncached_get_address_by_name W (S fuel) name st = (r, st') →
    grows W [name] st st' ∧ (∀ a, r = Ok a → fwdm (addresses st') !! name = Some a).
Proof.
  intros (_ & _ & _ & _ & _ & IHc) name st r st' Hne Hr.
  rewrite uncached_get_address_by_name_S.
  intros [(sha3 & st0 & [= <- <-] & Hk)|(e & [=] & _)]%bind_inv.
  apply bind_inv in Hk as [(c & st1 & Hc & Hk)|(e & Hc & ->)];
    apply IHc, grows_storage in Hc; [|split; [by apply grows_weaken|done]].
  destruct (grows_nil_inv _ _ _ Hc) as (Ha1 & _).
  assert (Hr1 : fwdm (addresses st1) !! name = None) by by rewrite Ha1.
  assert (Hev : grows W [name] st
                  (record_event (EvGetAddress name c
                     (keccak W ["string"; "string"] ["contract.address"; name])) st1)).
  { eapply grows_nil_l; [exact Hc|]. by apply grows_record_lookup. }
  apply bind_inv in Hk as [(address & st2 & [= Hch <-] & Hk)|(e & [= Hch <-] & ->)];
    [|by split].
  apply bind_inv in Hk as [(n & st3 & [= Hn <-] & Hk)|(e & [= Hn <-] & ->)];
    [|by split].
  destruct (n =? 0).
  { unfold raise in Hk. injection Hk as <- <-. by split. }
  apply bind_inv in Hk as [([] & st4 & Hs & [= <- <-])|(e & Hs & ->)];
    destruct (grows_lookup_insert W _ _ _ _ _ _ _ Hne Hr1 Hs) as [Hgr Hres].
  - split; [by eapply grows_nil_l|]. intros a [= <-]. by apply Hres.
  - split; [by eapply grows_nil_l|done].
Qed.

Lemma uncached_get_abi_by_name_grows fuel :
  resolution_grows W fuel →
  ∀ name st r st',
    uncached_get_abi_by_name W (S fuel) name st = (r, st') → grows W [] st st'.
Proof.
  intros (_ & _ & _ & _ & _ & IHc) name st r st'.
  rewrite uncached_get_abi_by_name_S.
  intros [(sha3 & st0 & [= Hsha <-] & Hk)|(e & [= Hsha <-] & _)]%bind_inv;
    [|apply grows_refl].
  apply bind_inv in Hk as [(c & st1 & Hc & Hk)|(e & Hc & ->)];
    apply IHc, grows_storage in Hc; [|done].
  assert (Hev : grows W [] st (record_event (EvGetString name c sha3) st1)).
  { eapply grows_nil_l; [exact Hc|]. by eapply (grows_frame W _ _ [EvGetString name c sha3]). }
  apply bind_inv in Hk as [(s & st2 & [= Hch <-] & Hk)|(e & [= Hch <-] & ->)]; [|done].
  destruct (negb (str_truthy s)); unfold raise, lift in Hk; by injection Hk as <- <-.
Qed.

Lemma get_abi_by_name_grows fuel :
  resolution_grows W fuel →
  ∀ name st r st', get_abi_by_name W (S fuel) name st = (r, st') → grows W [] st st'.
Proof.
  intros (_ & _ & _ & IHu & _) name st r st'. rewrite get_abi_by_name_S.
  intros [(v & Hg & -> & ->)|(Hg & st1 & Hf)]%cached_inv; [apply grows_refl|].
  destruct Hf as [(v & Hu & -> & ->)|(e & Hu & -> & ->)]; apply IHu in Hu; [|done].
  eapply grows_nil_r; [exact Hu|]. by eapply (grows_frame W _ _ []).
Qed.

Lemma str_truthy_true s : str_truthy s = true ↔ s ≠ "".
Proof.
  unfold str_truthy. destruct (bool_decide_reflect (s = "")); simpl; split; try done.
Qed.

Lemma assemble_contract_grows fuel :
  resolution_grows W fuel →
  ∀ name address mainnet st r st',
    assemble_contract W (S fuel) name address mainnet st = (r, st') → grows W [] st st'.
Proof.
  intros (_ & _ & IHabi & _) name address mainnet st r st'. rewrite assemble_contract_S.
  intros [(v & Hg & -> & ->)|(Hg & st1 & Hf)]%cached_inv; [apply grows_refl|].
  assert (Habi : ∀ r1 st2,
    match file W (abi_path name) with
    | Some contents =>
        if str_truthy contents then ret contents else get_abi_by_name W fuel name
    | None => get_abi_by_name W fuel name
    end st = (r1, st2) →
    grows W [] st st2 ∧
    ∀ abi, r1 = Ok abi →
           ∀ contents, file W (abi_path name) = Some contents → contents ≠ "" →
                       abi = contents).
  { intros r1 st2. destruct (file W (abi_path name)) as [contents|] eqn:Hfile.
    - destruct (str_truthy contents) eqn:Ht.
      + intros [= <- <-]. split; [apply grows_refl|]. by intros abi [= <-] c0 [= <-] _.
      + intros Ha%IHabi. split; [done|]. intros abi _ c0 [= <-] Hc0.
        apply str_truthy_true in Hc0. congruence.
    - intros Ha%IHabi. split; [done|]. by intros abi _ c0 [=]. }
  destruct Hf as [(v & Hu & -> & ->)|(e & Hu & -> & ->)];
    apply bind_inv in Hu as [(abi & st2 & Ha & Hk)|(e' & Ha & ?)];
    apply Habi in Ha as [Hgr Hfile]; try done.
  - unfold lift, eth_contract in Hk.
    destruct (contract_check W (default false mainnet) address abi); [discriminate|].
    injection Hk as <- <-.
    eapply grows_nil_r; [exact Hgr|]. apply grows_contract_cache. by apply Hfile.
  - unfold lift in Hk. by injection Hk as _ <-.
Qed.

Lemma get_contract_by_name_grows fuel :
  resolution_grows W fuel →
  ∀ name st r st',
    get_contract_by_name W (S fuel) name st = (r, st') → grows W [name] st st'.
Proof.
  intros (IHa & _ & _ & _ & IHasm & _) name st r st'. rewrite get_contract_by_name_S.
  intros [(address & st1 & Ha & Hk)|(e & Ha & _)]%bind_inv;
    apply IHa in Ha as [Ha _]; [|done].
  eapply grows_nil_r; [exact Ha|]. by eapply IHasm.
Qed.

Lemma resolution_grows_all fuel : resolution_grows W fuel.
Proof.
  induction fuel as [|fuel IH]; [apply resolution_grows_O|].
  unfold resolution_grows. split_and!.
  - by apply get_address_by_name_grows.
  - by apply uncached_get_address_by_name_grows.
  - by apply get_abi_by_name_grows.
  - by apply uncached_get_abi_by_name_grows.
  - by apply assemble_contract_grows.
  - by apply get_contract_by_name_grows.
Qed.

End resolution.

(** ** Operations and reachable states *)

Section operations.
Variable W : World.
Import Bidict.

Lemma grows_evolves allowed st st' : grows W allowed st st' → evolves W st st'.
Proof.
  intros (Hw & Hs & new & Ht & Hl). split; [done|]. split; [done|].
  exists new. split; [done|]. intros n Hn.
  destruct Hl as [[Hl _]|(n' & Hl & _ & _ & Hf)]; rewrite Hl in Hn.
  - by apply elem_of_nil in Hn.
  - by apply list_elem_of_singleton in Hn as ->.
Qed.

Lemma evolves_refl st : evolves W st st.
Proof. eapply grows_evolves, (grows_refl W []). Qed.

Lemma evolves_trans st1 st2 st3 : evolves W st1 st2 → evolves W st2 st3 → evolves W st1 st3.
Proof.
  intros (Hw1 & Hs1 & new1 & Ht1 & Hl1) (Hw2 & Hs2 & new2 & Ht2 & Hl2).
  split; [auto|]. split; [by etrans|].
  exists (new2 ++ new1)%list. split; [by rewrite Ht2, Ht1, app_assoc|].
  intros n. rewrite address_lookups_app. intros [Hn|Hn]%elem_of_app; [|by apply Hl1].
  apply Hl2 in Hn. destruct (fwdm (addresses st1) !! n) as [a|] eqn:Hf; [|done].
  eapply lookup_weaken in Hf; [|exact Hs1]. congruence.
Qed.

Lemma processReceipt_grows c entries st r st' :
  processReceipt W c entries st = (r, st') → grows W [] st st'.
Proof.
  revert st r. induction entries as [|entry entries IH]; intros st r; simpl.
  - intros [= <- <-]. apply grows_refl.
  - destruct (decode_DepositEvent W c entry).
    + intros [(rest & st1 & Hp & [= <- <-])|(e & Hp & _)]%bind_inv; by eapply IH.
    + intros [([] & st1 & Hw & Hp)|(e & Hw & _)]%bind_inv; unfold warn in Hw;
        destruct (warn_filter st); simplify_eq; try apply grows_refl; try by eapply IH.
      * eapply grows_nil_l; [|by eapply IH]. by eapply (grows_frame W _ _ []).
    + intros [= <- <-]. apply grows_refl.
Qed.

Lemma get_contract_by_address_grows fuel address st r st' :
  get_contract_by_address W fuel address st = (r, st') → grows W [] st st'.
Proof.
  destruct fuel as [|fuel]; [intros [= <- <-]; apply grows_refl|]. simpl.
  intros [(name & st1 & Hn & Hk)|(e & Hn & _)]%bind_inv.
  - assert (st1 = st) as -> by (unfold get_name_by_address in Hn; destruct address; by simplify_eq).
    destruct (resolution_grows_all W fuel) as (_ & _ & _ & _ & IHasm & _). by eapply IHasm.
  - unfold get_name_by_address in Hn. destruct address; simplify_eq.
Qed.

Lemma estimate_gas_for_call_grows fuel path args block st r st' :
  estimate_gas_for_call W fuel path args block st = (r, st') → evolves W st st'.
Proof.
  destruct fuel as [|fuel]; [intros [= <- <-]; apply evolves_refl|]. simpl.
  intros [([name function] & st0 & [= Hp <-] & Hk)|(e & [= Hp <-] & _)]%bind_inv;
    [|apply evolves_refl].
  destruct (resolution_grows_all W fuel) as (_ & _ & _ & _ & _ & IHc).
  apply bind_inv in Hk as [(contract & st1 & Hc & Hk)|(e & Hc & _)];
    apply IHc in Hc; [|by eapply grows_evolves].
  apply bind_inv in Hk as [(f & st2 & [= Hb <-] & Hk)|(e & [= Hb <-] & _)];
    [|by eapply grows_evolves].
  injection Hk as _ <-. eapply grows_evolves, grows_nil_r; [exact Hc|].
  by eapply (grows_frame W _ _ [EvEstimateGas f (2 ^ 32) block]).
Qed.

Lemma get_function_grows fuel path args address mainnet st r st' :
  get_function W fuel path args address mainnet st = (r, st') →
  ∃ name, grows W [name] st st'.
Proof.
  destruct fuel as [|fuel]; [intros [= <- <-]; exists ""; apply grows_refl|]. simpl.
  intros [([name function] & st0 & [= Hp <-] & Hk)|(e & [= Hp <-] & _)]%bind_inv;
    [|exists ""; apply grows_refl].
  exists name.
  destruct (resolution_grows_all W fuel) as (IHa & _ & _ & _ & IHasm & _).
  assert (Haddr : ∀ r1 st1,
    (if negb (truthy address)
     then let! a := get_address_by_name W fuel name in ret (VStr a)
     else ret address) st = (r1, st1) → grows W [name] st st1).
  { intros r1 st1. destruct (negb (truthy address)).
    - intros [(a & st2 & Ha & [= <- <-])|(e & Ha & _)]%bind_inv; by apply IHa in Ha as [Ha _].
    - intros [= <- <-]. apply grows_refl. }
  apply bind_inv in Hk as [(a & st1 & Ha & Hk)|(e & Ha & _)];
    apply Haddr in Ha; [|done].
  apply bind_inv in Hk as [(c & st2 & Hc & Hk)|(e & Hc & _)];
    apply IHasm in Hc; [|by eapply grows_nil_r].
  unfold lift in Hk. injection Hk as _ <-. by eapply grows_nil_r.
Qed.

Lemma call_grows fuel path args block address mainnet st r st' :
  call W fuel path args block address mainnet st = (r, st') → evolves W st st'.
Proof.
  destruct fuel as [|fuel]; [intros [= <- <-]; apply evolves_refl|]. simpl.
  intros [(f & st1 & Hf & Hk)|(e & Hf & _)]%bind_inv;
    apply get_function_grows in Hf as [name Hf]; [|by eapply grows_evolves].
  injection Hk as _ <-. eapply grows_evolves, grows_nil_r; [exact Hf|].
  by eapply (grows_frame W _ _ [EvCall f block]).
Qed.

Lemma get_revert_reason_grows tnx st r st' :
  get_revert_reason W tnx st = (r, st') → grows W [] st st'.
Proof.
  unfold get_revert_reason. intros Hr.
  assert (st' = record_event (EvEthCall (replay_params tnx) (tx_blockNumber tnx)) st) as ->.
  { destruct (eth_call _ _ _ _); try destruct (_ =? _); by simplify_eq. }
  by eapply (grows_frame W _ _ [EvEthCall _ _]).
Qed.

Lemma get_pubkey_using_transaction_grows fuel receipt st r st' :
  get_pubkey_using_transaction W fuel receipt st = (r, st') → evolves W st st'.
Proof.
  destruct fuel as [|fuel]; [intros [= <- <-]; apply evolves_refl|]. simpl.
  assert (Hbody : ∀ r1 st1,
    catch_warnings_ignore
      (let! deposit := get_contract_by_name W fuel "casperDeposit" in
       processReceipt W deposit (logs receipt)) st = (r1, st1) →
    grows W ["casperDeposit"] st st1).
  { intros r1 st1. unfold catch_warnings_ignore.
    destruct (bind _ _ (set_warn_filter FilterIgnore st)) as [r2 st2] eqn:Hb.
    intros [= <- <-].
    assert (grows W ["casperDeposit"] (set_warn_filter FilterIgnore st) st2) as Hin.
    { destruct (resolution_grows_all W fuel) as (_ & _ & _ & _ & _ & IHc).
      apply bind_inv in Hb as [(c & st3 & Hc & Hk)|(e & Hc & _)];
        apply IHc in Hc; [|done].
      eapply grows_nil_r; [exact Hc|]. by eapply processReceipt_grows. }
    apply (grows_nil_l W _ st (set_warn_filter FilterIgnore st));
      [by eapply (grows_frame W _ _ [])|].
    eapply grows_nil_r; [exact Hin|]. by eapply (grows_frame W _ _ []). }
  intros [(l & st1 & Hl & Hk)|(e & Hl & _)]%bind_inv; apply Hbody in Hl;
    [|by eapply grows_evolves].
  destruct l; injection Hk as _ <-; by eapply grows_evolves.
Qed.

Lemma run_op_evolves fuel o st :
  direct_lookup o = false → evolves W st (run_op W fuel o st).
Proof.
  destruct (resolution_grows_all W fuel) as (IHa & _ & IHabi & IHuabi & IHasm & IHc).
  destruct o; simpl; intros Hd; try discriminate Hd.
  - destruct (get_address_by_name _ _ _ _) eqn:H. apply IHa in H as [H _].
    by eapply grows_evolves.
  - destruct (get_abi_by_name _ _ _ _) eqn:H. apply IHabi in H. by eapply grows_evolves.
  - destruct (assemble_contract _ _ _ _ _ _) eqn:H. apply IHasm in H. by eapply grows_evolves.
  - destruct address; apply evolves_refl.
  - destruct (get_contract_by_name _ _ _ _) eqn:H. apply IHc in H. by eapply grows_evolves.
  - destruct (get_contract_by_address _ _ _ _) eqn:H.
    apply get_contract_by_address_grows in H. by eapply grows_evolves.
  - destruct (estimate_gas_for_call _ _ _ _ _ _) eqn:H. by eapply estimate_gas_for_call_grows.
  - destruct (get_function _ _ _ _ _ _ _) eqn:H. apply get_function_grows in H as [n H].
    by eapply grows_evolves.
  - destruct (call _ _ _ _ _ _ _ _) eqn:H. by eapply call_grows.
  - destruct (get_revert_reason _ _ _) eqn:H. apply get_revert_reason_grows in H.
    by eapply grows_evolves.
  - destruct (get_pubkey_using_transaction _ _ _ _) eqn:H.
    by eapply get_pubkey_using_transaction_grows.
  - destruct (uncached_get_abi_by_name _ _ _ _) eqn:H. apply IHuabi in H.
    by eapply grows_evolves.
Qed.

Lemma run_ops_evolves os st : no_direct_lookup os → evolves W st (run_ops W os st).
Proof.
  intros Hos. revert st.
  induction Hos as [|[fuel o] os Ho _ IH]; intros st; [apply evolves_refl|].
  simpl. eapply evolves_trans; [by apply run_op_evolves|apply IH].
Qed.

Lemma flush_wf st : wf W (snd (flush W st)).
Proof.
  destruct (flush W st) as [r st'] eqn:Hf.
  apply flush_caches in Hf as (Ha & _ & Hc & Hcons). simpl.
  split; [done| |]; intros *; rewrite ?Ha, ?Hc; by intros ?%elem_of_nil.
Qed.

Lemma reachable_wf st : reachable W st → wf W st.
Proof.
  induction 1 as [st|fuel o st Ho _ IH]; [apply flush_wf|].
  by apply (run_op_evolves fuel o st Ho).
Qed.

Lemma reachable_run_ops os st :
  no_direct_lookup os → reachable W st → reachable W (run_ops W os st).
Proof.
  intros Hos. revert st.
  induction Hos as [|[fuel o] os Ho _ IH]; intros st Hr; [done|].
  simpl. apply IH. by constructor.
Qed.

Lemma numbered_no_direct_lookup first n : no_direct_lookup (Sample.numbered first n).
Proof. apply Forall_fmap, Forall_forall. by intros i _. Qed.

End operations.

(** ** Every method is a sequence of elementary updates *)

Section updates.
Variable W : World.

Local Abbreviation updates := (rtc update).

Lemma updates_bind {A B} (m : M A) (k : A → M B) st r st' :
  (∀ r1 st1, m st = (r1, st1) → updates st st1) →
  (∀ a st1 r2 st2, m st = (Ok a, st1) → k a st1 = (r2, st2) → updates st1 st2) →
  bind m k st = (r, st') → updates st st'.
Proof.
  intros Hm Hk [(a & st1 & Ha & Hb)|(e & Ha & _)]%bind_inv.
  - etrans; [by eapply Hm|by eapply Hk].
  - by eapply Hm.
Qed.

Lemma updates_cached {K V} `{EqDecision K}
    (cache : RocketPool → FIFO.t K V) store (k : K) (func : M V) st r st' :
  (∀ r1 st1, func st = (r1, st1) → updates st st1) →
  (∀ v st1, func st = (Ok v, st1) → update st1 (store (FIFO.setitem k v (cache st1)) st1)) →
  cached cache store k func st = (r, st') → updates st st'.
Proof.
  intros Hf Hs [(v & _ & _ & ->)|(_ & st1 & [(v & Hv & _ & ->)|(e & He & _ & ->)])]%cached_inv.
  - done.
  - etrans; [by eapply Hf|]. by apply rtc_once, Hs.
  - by eapply Hf.
Qed.

Lemma addresses_setitem_updates name address st r st' :
  addresses_setitem name address st = (r, st') → updates st st'.
Proof.
  intros [(b & _ & Hs & ->)|(e & _ & _ & ->)]%addresses_setitem_inv; [|done].
  eapply rtc_once, update_addresses, Hs.
Qed.

(** The name of a direct lookup that returns is registered afterwards. *)
Lemma uncached_lookup_registers fuel name st a st' :
  uncached_get_address_by_name W fuel name st = (Ok a, st') →
  is_Some (Bidict.get name (addresses st')).
Proof.
  destruct fuel as [|fuel]; [done|]. rewrite uncached_get_address_by_name_S.
  intros [(sha3 & ? & [= _ <-] & Hk)|(e & _ & [=])]%bind_inv.
  apply bind_inv in Hk as [(c & st1 & Hc & Hk)|(e & _ & [=])].
  apply bind_inv in Hk as [(address & ? & [= _ <-] & Hk)|(e & _ & [=])].
  apply bind_inv in Hk as [(n & ? & [= Hn <-] & Hk)|(e & _ & [=])].
  destruct (n =? 0); [done|].
  apply bind_inv in Hk as [([] & st4 & Hs & [= <- <-])|(e & _ & [=])].
  apply addresses_setitem_inv in Hs as [(b & _ & Hs & ->)|(e & [=] & _)].
  simpl. eapply setitem_keeps_names; [exact Hs|by right].
Qed.

Lemma resolution_updates_all fuel : resolution_updates W fuel.
Proof.
  induction fuel as [|fuel (IHa & IHu & IHabi & IHuabi & IHasm & IHc)].
  { unfold resolution_updates. split_and!; intros; simpl in *; unfold raise in *;
      by simplify_eq. }
  unfold resolution_updates. split_and!.
  - intros name st r st'. rewrite get_address_by_name_S.
    apply updates_cached.
    + intros r1 st1. destruct (Bidict.get name (addresses st)).
      * by intros [= <- <-].
      * apply IHu.
    + intros v st1. destruct (Bidict.get name (addresses st)) as [a|] eqn:Hr.
      * intros [= <- <-]. apply update_address_cache. by rewrite Hr.
      * intros Hu. by eapply update_address_cache, uncached_lookup_registers.
  - intros name st r st'. rewrite uncached_get_address_by_name_S.
    apply updates_bind; [by intros ?? [= <- <-]|].
    intros sha3 ? r2 st2 [= _ <-].
    apply updates_bind; [apply IHc|]. intros c st1 r3 st3 _.
    apply updates_bind; [intros ?? [= _ <-]; apply rtc_once, update_event|].
    intros address ? r4 st4 [= _ <-].
    apply updates_bind; [by intros ?? [= <- <-]|].
    intros n ? r5 st5 [= _ <-]. destruct (n =? 0); [by intros [= <- <-]|].
    apply updates_bind; [apply addresses_setitem_updates|].
    by intros [] ? ? ? _ [= <- <-].
  - intros name st r st'. rewrite get_abi_by_name_S.
    apply updates_cached; [apply IHuabi|intros; apply update_abi_cache].
  - intros name st r st'. rewrite uncached_get_abi_by_name_S.
    apply updates_bind; [by intros ?? [= <- <-]|].
    intros sha3 ? r2 st2 [= _ <-].
    apply updates_bind; [apply IHc|]. intros c st1 r3 st3 _.
    apply updates_bind; [intros ?? [= _ <-]; apply rtc_once, update_event|].
    intros s ? r4 st4 [= _ <-].
    destruct (negb (str_truthy s)); by intros [= <- <-].
  - intros name address mainnet st r st'. rewrite assemble_contract_S.
    apply updates_cached; [|intros; apply update_contract_cache].
    intros r1 st1. apply updates_bind; [|by intros ???? _ [= <- <-]].
    intros r2 st2. destruct (file W (abi_path name)) as [contents|];
      [destruct (str_truthy contents)|]; try apply IHabi. by intros [= <- <-].
  - intros name st r st'. rewrite get_contract_by_name_S.
    apply updates_bind; [apply IHa|]. intros a st1 r2 st2 _. apply IHasm.
Qed.

Lemma get_function_updates fuel path args address mainnet st r st' :
  get_function W fuel path args address mainnet st = (r, st') → updates st st'.
Proof.
  destruct (resolution_updates_all (pred fuel)) as (IHa & _ & _ & _ & IHasm & _).
  destruct fuel as [|fuel]; [by intros [= <- <-]|]. simpl.
  apply updates_bind; [by intros ?? [= <- <-]|].
  intros [name function] ? r2 st2 [= _ <-].
  apply updates_bind.
  - intros r1 st1. destruct (negb (truthy address)); [|by intros [= <- <-]].
    apply updates_bind; [apply IHa|]. by intros ???? _ [= <- <-].
  - intros a st1 r3 st3 _. apply updates_bind; [apply IHasm|].
    by intros ???? _ [= <- <-].
Qed.

Lemma call_updates fuel path args block address mainnet st r st' :
  call W fuel path args block address mainnet st = (r, st') → updates st st'.
Proof.
  destruct fuel as [|fuel]; [by intros [= <- <-]|]. simpl.
  apply updates_bind; [apply get_function_updates|].
  intros f st1 r2 st2 _ [= _ <-]. apply rtc_once, update_event.
Qed.

Lemma processReceipt_updates c entries st r st' :
  processReceipt W c entries st = (r, st') → updates st st'.
Proof.
  revert st r st'. induction entries as [|entry entries IH]; intros st r st'; simpl.
  - by intros [= <- <-].
  - destruct (decode_DepositEvent W c entry).
    + apply updates_bind; [intros ??; apply IH|]. by intros ???? _ [= <- <-].
    + apply updates_bind; [|intros [] ??? _; apply IH].
      intros r1 st1. unfold warn. destruct (warn_filter st); intros [= <- <-]; [done| |done].
      apply rtc_once, update_warning.
    + by intros [= <- <-].
Qed.

Lemma run_op_updates fuel o st : updates st (run_op W fuel o st).
Proof.
  destruct (resolution_updates_all fuel) as (IHa & IHu & IHabi & IHuabi & IHasm & IHc).
  destruct (resolution_updates_all (pred fuel)) as (_ & _ & _ & _ & IHasm' & IHc').
  destruct o; simpl.
  - destruct (get_address_by_name _ _ _ _) eqn:H. by eapply IHa.
  - destruct (get_abi_by_name _ _ _ _) eqn:H. by eapply IHabi.
  - destruct (assemble_contract _ _ _ _ _ _) eqn:H. by eapply IHasm.
  - by destruct address.
  - destruct (get_contract_by_name _ _ _ _) eqn:H. by eapply IHc.
  - destruct (get_contract_by_address _ _ _ _) eqn:H. revert H.
    destruct fuel as [|fuel]; [by intros [= <- <-]|]. simpl.
    apply updates_bind; [|intros ???? _; apply IHasm'].
    intros r1 st1. unfold get_name_by_address. destruct address; by intros [= <- <-].
  - destruct (estimate_gas_for_call _ _ _ _ _ _) eqn:H. revert H.
    destruct fuel as [|fuel]; [by intros [= <- <-]|]. simpl.
    apply updates_bind; [by intros ?? [= <- <-]|].
    intros [name function] ? r2 st2 [= _ <-].
    apply updates_bind; [apply IHc'|]. intros c st1 r3 st3 _.
    apply updates_bind; [by intros ?? [= <- <-]|].
    intros f ? r4 st4 [= _ <-] [= _ <-]. apply rtc_once, update_event.
  - destruct (get_function _ _ _ _ _ _ _) eqn:H. by eapply get_function_updates.
  - destruct (call _ _ _ _ _ _ _ _) eqn:H. by eapply call_updates.
  - destruct (get_revert_reason _ _ _) eqn:H. unfold get_revert_reason in H.
    assert (r0 = record_event (EvEthCall (replay_params tnx) (tx_blockNumber tnx)) st) as ->.
    { destruct (eth_call _ _ _ _); try destruct (_ =? _); by simplify_eq. }
    apply rtc_once, update_event.
  - destruct (get_pubkey_using_transaction _ _ _ _) eqn:H. revert H.
    destruct fuel as [|fuel]; [by intros [= <- <-]|]. simpl.
    apply updates_bind; [|intros l ???; destruct l; by intros _ [= <- <-]].
    intros r1 st1. unfold catch_warnings_ignore.
    destruct (bind _ _ (set_warn_filter FilterIgnore st)) as [r2 st2] eqn:Hb.
    intros [= <- <-].
    etrans; [apply rtc_once, (update_filter st FilterIgnore)|].
    etrans; [|apply rtc_once, update_filter].
    revert Hb. apply updates_bind; [apply IHc'|].
    intros ???? _. apply processReceipt_updates.
  - destruct (uncached_get_address_by_name _ _ _ _) eqn:H. by eapply IHu.
  - destruct (uncached_get_abi_by_name _ _ _ _) eqn:H. by eapply IHuabi.
Qed.

Lemma run_ops_updates os st : updates st (run_ops W os st).
Proof.
  revert st. induction os as [|[fuel o] os IH]; intros st; [done|].
  simpl. etrans; [apply run_op_updates|apply IH].
Qed.

Lemma seed_addresses_updates items st r st' :
  seed_addresses items st = (r, st') → updates st st'.
Proof.
  revert st r st'. induction items as [|[name address] items IH]; intros st r st'; simpl.
  - by intros [= <- <-].
  - apply updates_bind; [apply addresses_setitem_updates|]. intros [] ??? _. apply IH.
Qed.

(** What every elementary update keeps: the registry stays a bijection,
    it loses no name, and the names of the address cache stay
    registered. *)
Lemma update_keeps_registry st st' :
  update st st' →
  (Bidict.consistent (addresses st) → Bidict.consistent (addresses st'))
  ∧ (∀ n, is_Some (Bidict.get n (addresses st)) → is_Some (Bidict.get n (addresses st')))
  ∧ (cache_registered st → cache_registered st').
Proof.
  destruct 1 as [st k v Hk| | | |st name address b Hs| |]; simpl;
    try by (split_and!; [done|done|intros Hc ???; by eapply Hc]).
  - split_and!; [done|done|]. intros Hc n a [[= -> ->]|Hin]%setitem_elem_of; [done|].
    by eapply Hc.
  - split_and!.
    + intros Hb. by eapply setitem_consistent.
    + intros n Hn. eapply setitem_keeps_names; [exact Hs|by left].
    + intros Hc n a Hin. simpl. eapply setitem_keeps_names; [exact Hs|].
      left. by eapply Hc.
Qed.

Lemma updates_keep_registry st st' :
  updates st st' →
  (Bidict.consistent (addresses st) → Bidict.consistent (addresses st'))
  ∧ (∀ n, is_Some (Bidict.get n (addresses st)) → is_Some (Bidict.get n (addresses st')))
  ∧ (cache_registered st → cache_registered st').
Proof.
  induction 1 as [st|st1 st2 st3 Hu _ (IH1 & IH2 & IH3)]; [done|].
  destruct (update_keeps_registry _ _ Hu) as (H1 & H2 & H3). split_and!; auto.
Qed.

(** In every state the object can be in, the registry is a bijection and
    the names of the address cache are registered. *)
Lemma possible_registry st :
  possible W st → Bidict.consistent (addresses st) ∧ cache_registered st.
Proof.
  induction 1 as [st|fuel o st _ [IH1 IH2]].
  - destruct (flush W st) as [r st'] eqn:Hf.
    apply flush_caches in Hf as (Ha & _ & _ & Hcons). simpl.
    split; [done|]. intros n a. rewrite Ha. by intros ?%elem_of_nil.
  - destruct (updates_keep_registry _ _ (run_op_updates fuel o st)) as (H1 & _ & H3). auto.
Qed.

Lemma reachable_possible st : reachable W st → possible W st.
Proof. induction 1; by constructor. Qed.

End updates.

(** ** Resolving a name again *)

Section repeated.
Variable W : World.
Import Bidict.

Lemma lookup_count_app name t1 t2 :
  lookup_count name (t1 ++ t2)
  = (length (filter (λ n, n = name) (address_lookups t1)) + lookup_count name t2)%nat.
Proof.
  unfold lookup_count. by rewrite address_lookups_app, filter_app, length_app.
Qed.

Lemma lookup_count_none name new t :
  name ∉ address_lookups new → lookup_count name (new ++ t) = lookup_count name t.
Proof.
  intros Hn. rewrite lookup_count_app.
  replace (filter (λ n, n = name) (address_lookups new)) with (@nil string); [done|].
  symmetry. induction (address_lookups new) as [|x l IH]; [done|].
  apply not_elem_of_cons in Hn as [Hx Hl].
  rewrite filter_cons_False by done. by apply IH.
Qed.

Lemma lookup_count_grows allowed name st st' :
  grows W allowed st st' →
  (lookup_count name (trace st') ≤ S (lookup_count name (trace st)))%nat.
Proof.
  intros (_ & _ & new & -> & Hl). rewrite lookup_count_app.
  destruct Hl as [[-> _]|(n & -> & _)]; simpl; [lia|].
  rewrite filter_cons. destruct (decide (n = name)); simpl; lia.
Qed.

(** A registered name is answered from the cache or from the registry:
    no request is sent, and at most the address cache changes. *)
Lemma registered_name_is_served fuel name a st :
  wf W st → get name (addresses st) = Some a →
  ∃ st', get_address_by_name W (S fuel) name st = (Ok a, st') ∧
         trace st' = trace st ∧ addresses st' = addresses st ∧
         (st' = st ∨
          FIFO.getitem name (ADDRESS_CACHE st) = None ∧
          st' = set_ADDRESS_CACHE (FIFO.setitem name a (ADDRESS_CACHE st)) st).
Proof.
  intros Hwf Hr. rewrite get_address_by_name_S. unfold cached.
  destruct (FIFO.getitem name (ADDRESS_CACHE st)) as [v|] eqn:Hg.
  - apply getitem_elem_of, (wf_address_cache _ _ Hwf) in Hg.
    unfold get in Hr. assert (v = a) as -> by congruence.
    exists st. split_and!; try done. by left.
  - rewrite Hr. eexists. split_and!; try done. by right.
Qed.

End repeated.

(** C3, as stated, fails: [uncached_get_address_by_name] is a public
    method, and a direct call of it replaces the registered address of a
    name without touching the address cache.  Contract 0 is resolved, its
    address is then looked up directly (the chain now answers [0xdead]),
    2048 other contracts are resolved, which evicts the cached entry, and
    the next [resolveAddress("0")] returns the new address: two calls with
    no flush between them, two different addresses, two lookups. *)
Lemma direct_lookup_changes_the_answer :
  let st := run_ops Upgrade.world (Sample.numbered 1 2048) Upgrade.looked_up_twice in
  fst (get_address_by_name Upgrade.world 10 "0" Upgrade.rp) = Ok "0x10"
  ∧ fst (get_address_by_name Upgrade.world 10 "0" st) = Ok "0xdead"
  ∧ lookup_count "0" (trace st) = 2%nat.
Proof. vm_compute. repeat split; reflexivity. Qed.

(** C3 (amended): as long as [uncached_get_address_by_name] is not called
    directly (neither since the last flush nor between the calls), once
    [resolveAddress(name)] has returned an address every later call
    returns the identical address, whatever other operations (further
    calls for the same name among them) come in between; the first call
    sent at most one address lookup for the name, and nothing after it
    sends another one. *)
Theorem repeated_resolution_is_stable (W : World) (st0 st1 : RocketPool)
    (fuel0 fuel : nat) (name a : string) (os : list (nat * op)) :
  reachable W st0 →
  get_address_by_name W fuel0 name st0 = (Ok a, st1) →
  no_direct_lookup os →
  ∃ st3,
    get_address_by_name W (S fuel) name (run_ops W os st1) = (Ok a, st3)
    ∧ (lookup_count name (trace st1) ≤ S (lookup_count name (trace st0)))%nat
    ∧ lookup_count name (trace st3) = lookup_count name (trace st1).
Proof.
  intros Hreach Hfirst Hos. apply reachable_wf in Hreach as Hwf0.
  destruct (resolution_grows_all W fuel0) as (IHa & _).
  destruct (IHa _ _ _ _ Hfirst) as [Hgr Hres].
  assert (Hreg1 : Bidict.fwdm (addresses st1) !! name = Some a) by by apply Hres.
  assert (Hwf1 : wf W st1) by by apply Hgr.
  destruct (run_ops_evolves W os st1 Hos) as (Hwf2 & Hsub & new & Ht & Hl).
  assert (Hreg2 : Bidict.get name (addresses (run_ops W os st1)) = Some a).
  { unfold Bidict.get. by eapply lookup_weaken. }
  destruct (registered_name_is_served W fuel name a _ (Hwf2 Hwf1) Hreg2)
    as (st3 & Hcall & Ht3 & _).
  exists st3. split; [done|]. split; [by eapply lookup_count_grows|].
  rewrite Ht3, Ht. apply lookup_count_none. intros Hin. apply Hl in Hin. congruence.
Qed.

(** A call that raises stores nothing: a name the storage contract does
    not know is looked up again by every call. *)
Example unknown_name_is_looked_up_again :
  let st1 := snd (get_address_by_name Sample.world 10 "unknownContract" Sample.rp) in
  let st2 := snd (get_address_by_name Sample.world 10 "unknownContract" st1) in
  fst (get_address_by_name Sample.world 10 "unknownContract" Sample.rp)
  = Err (Exception "No address found for unknownContract Contract")
  ∧ fst (get_address_by_name Sample.world 10 "unknownContract" st1)
    = Err (Exception "No address found for unknownContract Contract")
  ∧ lookup_count "unknownContract" (trace st2) = 2%nat.
Proof. vm_compute. repeat split; reflexivity. Qed.

(** A direct call of [uncached_get_address_by_name] for a resolved name
    whose address has changed on the chain: the registry takes the new
    address, in both directions; the address cache keeps the old one and
    goes on answering with it; and the old address is free for another
    name. *)
Example direct_lookup_leaves_the_cache_stale :
  let st := Upgrade.looked_up_twice in
  Bidict.get "0" (addresses st) = Some "0xdead"
  ∧ Bidict.inverse_get "0xdead" (addresses st) = Some "0"
  ∧ Bidict.inverse_get "0x10" (addresses st) = None
  ∧ FIFO.getitem "0" (ADDRESS_CACHE st) = Some "0x10"
  ∧ get_address_by_name Upgrade.world 10 "0" st = (Ok "0x10", st)
  ∧ fst (get_address_by_name Upgrade.world 10 "successor" st) = Ok "0x10".
Proof. vm_compute. repeat split; reflexivity. Qed.

(** C9: a name that was resolved stays in the registry, in both
    directions, through every operation other than [flush], the direct
    calls of the two uncached helpers included; when its entry has left
    the address cache, the next [resolveAddress(name)] returns the
    registry's address and puts it back into the cache; no
    [resolveAddress(name)] sends anything to the chain any more.  The
    registry's address is the one that was resolved unless
    [uncached_get_address_by_name] was called directly. *)
Theorem resolved_name_stays_registered (W : World) (st0 st1 : RocketPool)
    (fuel0 : nat) (name a : string) (os : list (nat * op)) :
  possible W st0 →
  get_address_by_name W fuel0 name st0 = (Ok a, st1) →
  ∃ a',
    Bidict.get name (addresses (run_ops W os st1)) = Some a'
    ∧ Bidict.inverse_get a' (addresses (run_ops W os st1)) = Some name
    ∧ (FIFO.getitem name (ADDRESS_CACHE (run_ops W os st1)) = None →
       ∀ fuel,
         get_address_by_name W (S fuel) name (run_ops W os st1)
         = (Ok a', set_ADDRESS_CACHE
                     (FIFO.setitem name a' (ADDRESS_CACHE (run_ops W os st1)))
                     (run_ops W os st1)))
    ∧ (∀ fuel,
         trace (snd (get_address_by_name W (S fuel) name (run_ops W os st1)))
         = trace (run_ops W os st1))
    ∧ (reachable W st0 → no_direct_lookup os → a' = a).
Proof.
  intros Hposs Hfirst.
  destruct (possible_registry W st0 Hposs) as [Hc0 Hr0].
  destruct (resolution_updates_all W fuel0) as (IHu & _).
  destruct (updates_keep_registry _ _ (IHu _ _ _ _ Hfirst)) as (Hc1 & _ & Hr1).
  assert (Hin : (name, a) ∈ ADDRESS_CACHE st1).
  { destruct fuel0 as [|fuel0]; [done|]. rewrite get_address_by_name_S in Hfirst.
    apply cached_inv in Hfirst
      as [(v & Hg & [= ->] & ->)|(_ & st' & [(v & _ & [= ->] & ->)|(e & _ & [=] & _)])].
    - by apply getitem_elem_of.
    - apply setitem_elem_of_new. }
  assert (Hreg1 : is_Some (Bidict.get name (addresses st1))) by (eapply Hr1; eauto).
  destruct (updates_keep_registry _ _ (run_ops_updates W os st1)) as (Hc2 & Hk2 & _).
  destruct (Hk2 _ Hreg1) as [a' Ha'].
  exists a'. split_and!.
  - done.
  - by apply (Hc2 (Hc1 Hc0)).
  - intros Hmiss fuel. rewrite get_address_by_name_S. unfold cached.
    by rewrite Hmiss, Ha'.
  - intros fuel. rewrite get_address_by_name_S. unfold cached.
    destruct (FIFO.getitem name (ADDRESS_CACHE (run_ops W os st1))); [done|].
    by rewrite Ha'.
  - intros Hreach Hos. apply reachable_wf in Hreach as Hwf0.
    destruct (resolution_grows_all W fuel0) as (IHa & _).
    destruct (IHa _ _ _ _ Hfirst) as [Hgr Hres].
    assert (Hreg : Bidict.fwdm (addresses st1) !! name = Some a) by by apply Hres.
    destruct (run_ops_evolves W os st1 Hos) as (_ & Hsub & _).
    eapply lookup_weaken in Hreg; [|exact Hsub]. unfold Bidict.get in Ha'. congruence.
Qed.

(** C4: in a reachable state, for a name that is not registered, when the
    storage contract is resolved and answers the lookup with an address
    whose value is zero, [resolveAddress(name)] raises the "no address
    found" exception; the registry is unchanged and the name is not
    cached. *)
Theorem zero_address_is_not_found (W : World) (st st1 : RocketPool) (fuel : nat)
    (name address : string) (storage : Contract) :
  reachable W st →
  Bidict.get name (addresses st) = None →
  get_contract_by_name W fuel "rocketStorage" st = (Ok storage, st1) →
  chain_getAddress W (trace st1) storage
    (keccak W ["string"; "string"] ["contract.address"; name]) = Ok address →
  toInt address = Ok 0 →
  ∃ st',
    get_address_by_name W (S (S fuel)) name st
    = (Err (Exception ("No address found for " ++ name ++ " Contract")), st')
    ∧ addresses st' = addresses st
    ∧ FIFO.getitem name (ADDRESS_CACHE st') = None.
Proof.
  intros Hreach Hreg Hstorage Hchain Hzero. apply reachable_wf in Hreach as Hwf.
  assert (Hmiss : ∀ s, wf W s → Bidict.get name (addresses s) = None →
                       FIFO.getitem name (ADDRESS_CACHE s) = None).
  { intros s Hs Hn. destruct (FIFO.getitem name (ADDRESS_CACHE s)) as [v|] eqn:Hg; [|done].
    apply getitem_elem_of, (wf_address_cache _ _ Hs) in Hg. unfold Bidict.get in Hn.
    congruence. }
  destruct (resolution_grows_all W fuel) as (_ & _ & _ & _ & _ & IHc).
  pose proof (grows_storage W _ _ (IHc _ _ _ _ Hstorage)) as Hgr.
  destruct (grows_nil_inv _ _ _ Hgr) as (Haddr & _).
  exists (record_event (EvGetAddress name storage
            (keccak W ["string"; "string"] ["contract.address"; name])) st1).
  split; [|split; [done|]].
  - rewrite get_address_by_name_S. unfold cached. rewrite (Hmiss _ Hwf Hreg), Hreg.
    rewrite uncached_get_address_by_name_S. unfold bind at 1. cbn [lift soliditySha3 mapM].
    simpl. unfold bind at 1. rewrite Hstorage.
    unfold bind at 1. unfold storage_getAddress. rewrite Hchain.
    unfold bind at 1. unfold lift. rewrite Hzero. done.
  - simpl. apply Hmiss; [by apply Hgr|]. by rewrite Haddr.
Qed.

(** Two resolutions of the same name on the sample deployment, with the
    resolution of another contract and a third call in between. *)
Lemma repeated_resolution_is_stable_witness :
  ∃ st3,
    get_address_by_name Sample.world 5 "rocketTokenRPL"
      (run_ops Sample.world
         [(10%nat, OpGetContractByName "casperDeposit");
          (10%nat, OpGetAddressByName "rocketTokenRPL")]
         (snd (get_address_by_name Sample.world 10 "rocketTokenRPL" Sample.rp)))
    = (Ok Sample.rpl_address, st3)
    ∧ (lookup_count "rocketTokenRPL"
         (trace (snd (get_address_by_name Sample.world 10 "rocketTokenRPL" Sample.rp)))
       ≤ S (lookup_count "rocketTokenRPL" (trace Sample.rp)))%nat
    ∧ lookup_count "rocketTokenRPL" (trace st3)
      = lookup_count "rocketTokenRPL"
          (trace (snd (get_address_by_name Sample.world 10 "rocketTokenRPL" Sample.rp))).
Proof.
  apply (repeated_resolution_is_stable Sample.world Sample.rp _ 10 4).
  - exact (reachable_flush Sample.world Sample.blank).
  - vm_compute. reflexivity.
  - repeat constructor.
Defined.

(** Contract 0 is resolved first and 2048 other contracts after it: its
    entry has left the address cache, and it is still answered, from the
    registry. *)
Lemma resolved_name_stays_registered_witness :
  FIFO.getitem "0" (ADDRESS_CACHE Sample.crowded) = None
  ∧ Bidict.get "0" (addresses Sample.crowded) = Some "0x10"
  ∧ get_address_by_name Sample.crowded_world 5 "0" Sample.crowded
    = (Ok "0x10",
       set_ADDRESS_CACHE (FIFO.setitem "0" "0x10" (ADDRESS_CACHE Sample.crowded))
         Sample.crowded).
Proof.
  unfold Sample.crowded.
  match goal with
  | |- ?miss ∧ _ => assert (Hmiss : miss) by (vm_compute; reflexivity)
  end.
  pose proof (resolved_name_stays_registered Sample.crowded_world
                (snd (flush Sample.crowded_world Sample.blank)) Sample.crowded_first
                10 "0" "0x10" (Sample.numbered 1 2048)
                (possible_flush Sample.crowded_world Sample.blank)) as H.
  destruct H as (a' & Hreg & _ & Hcall & _ & Hsame); [vm_compute; reflexivity|].
  pose proof (Hsame (reachable_flush Sample.crowded_world Sample.blank)
                (numbered_no_direct_lookup 1 2048)) as ->.
  split; [exact Hmiss|]. split; [exact Hreg|].
  exact (Hcall Hmiss 4%nat).
Defined.

Lemma zero_address_is_not_found_witness :
  ∃ st',
    get_address_by_name Sample.world 5 "unknownContract" Sample.rp
    = (Err (Exception "No address found for unknownContract Contract"), st')
    ∧ addresses st' = addresses Sample.rp
    ∧ FIFO.getitem "unknownContract" (ADDRESS_CACHE st') = None.
Proof.
  apply (zero_address_is_not_found Sample.world Sample.rp
           (snd (get_contract_by_name Sample.world 3 "rocketStorage" Sample.rp)) 3
           "unknownContract" Sample.zero_address
           {| c_mainnet := false; c_address := VStr Sample.storage_address;
              c_abi := "[storage]" |}).
  - exact (reachable_flush Sample.world Sample.blank).
  - vm_compute. reflexivity.
  - vm_compute. reflexivity.
  - vm_compute. reflexivity.
  - vm_compute. reflexivity.
Defined.

(** ** Dotted paths *)

Section paths.

Lemma split_length s : length (split "." s) = S (count_dots s).
Proof.
  induction s as [|c s IH]; [done|]. simpl.
  destruct (decide (c = "."%char)); simpl; [by rewrite IH|].
  destruct (split "." s) as [|h t]; [done|]. done.
Qed.

Lemma split_no_dot s : count_dots s = 0%nat → split "." s = [s].
Proof.
  induction s as [|c s IH]; [done|]. simpl.
  destruct (decide (c = "."%char)); [done|]. intros Hc. by rewrite IH.
Qed.

Lemma split_one_dot s :
  count_dots s = 1%nat →
  ∃ name function,
    split "." s = [name; function] ∧ s = name ++ "." ++ function ∧
    count_dots name = 0%nat ∧ count_dots function = 0%nat.
Proof.
  induction s as [|c s IH]; [done|]. simpl.
  destruct (decide (c = "."%char)) as [->|Hne].
  - intros [= Hc]. exists "", s. by rewrite (split_no_dot _ Hc).
  - intros (name & function & -> & -> & Hn & Hf)%IH.
    exists (String c name), function. simpl. by rewrite decide_False.
Qed.

Lemma split_path_ok path name function :
  split_path path = Ok (name, function) → split "." path = [name; function].
Proof.
  unfold split_path. destruct (split "." path) as [|a [|b [|c l]]]; try done.
  by intros [= -> ->].
Qed.

Lemma split_path_err path :
  count_dots path ≠ 1%nat →
  split_path path
  = Err (Exception ("Invalid contract path: Invalid part count: have "
                    ++ pretty (S (count_dots path)) ++ ", want 2")).
Proof.
  intros Hc. unfold split_path. pose proof (split_length path) as Hl.
  rewrite <- Hl.
  destruct (split "." path) as [|a [|b [|c l]]]; try done.
  simpl in Hl. congruence.
Qed.

End paths.

(** C5, as stated, fails: a path with one dot and an empty function name
    is not made of two non-empty parts, yet the parsing step accepts it. *)
Lemma empty_part_is_accepted :
  split_path "rocketTokenRPL." = Ok ("rocketTokenRPL", "")
  ∧ ¬ two_nonempty_parts "rocketTokenRPL."
  ∧ split_path ".getInflationIntervalRate" = Ok ("", "getInflationIntervalRate").
Proof.
  split; [reflexivity|]. split; [|reflexivity].
  intros (name & function & Hs & _ & Hf). vm_compute in Hs. congruence.
Qed.

(** C5 (amended): the parsing step of [get_function], [call] and
    [estimate_gas_for_call] fails exactly when the path does not contain
    exactly one dot, that is when [split(".")] does not give two parts;
    with one dot it succeeds with the text before and after the dot,
    either of which may be empty.  The failure is the "invalid part count"
    exception, which the three methods raise without touching the
    state. *)
Theorem path_parsing_counts_parts (W : World) (fuel : nat) (path : string)
    (args : list pyval) (block address : pyval) (mainnet : bool) (st : RocketPool) :
  ((∃ e, split_path path = Err e) ↔ count_dots path ≠ 1%nat)
  ∧ (∀ name function,
       split_path path = Ok (name, function) ↔
       path = name ++ "." ++ function ∧ count_dots name = 0%nat
       ∧ count_dots function = 0%nat)
  ∧ (∀ e, split_path path = Err e →
          e = Exception ("Invalid contract path: Invalid part count: have "
                         ++ pretty (length (split "." path)) ++ ", want 2")
          ∧ get_function W (S fuel) path args address mainnet st = (Err e, st)
          ∧ call W (S (S fuel)) path args block address mainnet st = (Err e, st)
          ∧ estimate_gas_for_call W (S fuel) path args block st = (Err e, st)).
Proof.
  split; [|split].
  - split.
    + intros [e He] Hc. apply split_one_dot in Hc as (n & f & Hs & _).
      unfold split_path in He. rewrite Hs in He. discriminate.
    + intros Hc. eexists. by apply split_path_err.
  - intros name function. split.
    + intros Hs%split_path_ok.
      assert (Hc : count_dots path = 1%nat).
      { pose proof (split_length path) as Hl. rewrite Hs in Hl. simpl in Hl. lia. }
      apply split_one_dot in Hc as (n & f & Hs' & -> & Hn & Hf).
      rewrite Hs in Hs'. by simplify_eq.
    + intros (-> & Hn & Hf).
      assert (Hs : split "." (name ++ "." ++ function) = [name; function]).
      { clear -Hn Hf. induction name as [|c name IH]; simpl in *.
        - change ("" ++ function) with function. by rewrite (split_no_dot _ Hf).
        - destruct (decide (c = "."%char)); [done|]. by rewrite IH. }
      unfold split_path. by rewrite Hs.
  - intros e He. split.
    + unfold split_path in He.
      destruct (split "." path) as [|a [|b [|c l]]]; by simplify_eq.
    + simpl. unfold bind, lift. rewrite He. done.
Qed.

(** ** Assembling a contract *)

(** C6, as stated, fails: the file [./contracts/empty.abi.json] exists,
    but it is empty, so [if not abi] sends [assemble_contract] to the ABI
    lookup: the handle carries the decoded chain ABI and a [getString]
    request was sent. *)
Lemma empty_local_abi_falls_back_to_chain :
  file Sample.world (abi_path (Some "empty")) = Some ""
  ∧ assemble_contract Sample.world 10 (Some "empty") (VStr Sample.rpl_address) None Sample.rp
    = (Ok {| c_mainnet := false; c_address := VStr Sample.rpl_address;
             c_abi := "decoded eJw=" |},
       snd (assemble_contract Sample.world 10 (Some "empty") (VStr Sample.rpl_address) None
              Sample.rp))
  ∧ trace (snd (assemble_contract Sample.world 10 (Some "empty") (VStr Sample.rpl_address)
                  None Sample.rp))
    = [EvGetString (Some "empty")
         {| c_mainnet := false; c_address := VStr Sample.storage_address;
            c_abi := "[storage]" |}
         "contract.abi:empty"]
  ∧ FIFO.getitem (Some "empty")
      (ABI_CACHE (snd (assemble_contract Sample.world 10 (Some "empty")
                         (VStr Sample.rpl_address) None Sample.rp)))
    = Some "decoded eJw=".
Proof. vm_compute. repeat split; reflexivity. Qed.

(** C6 (amended): for a name whose local ABI file exists and is not
    empty, [assemble_contract] is the cached construction of the handle
    from the file's contents: [get_abi_by_name] plays no part in it, the
    ABI cache and the requests sent to the chain are as before, and in a
    reachable state every handle it returns, fresh or cached, carries the
    file's contents as its ABI. *)
Theorem local_abi_wins (W : World) (fuel : nat) (name : option string) (address : pyval)
    (mainnet : option bool) (contents : string) (st : RocketPool) :
  reachable W st →
  file W (abi_path name) = Some contents →
  contents ≠ "" →
  assemble_contract W (S fuel) name address mainnet st
  = cached CONTRACT_CACHE set_CONTRACT_CACHE (name, address, mainnet)
      (lift (eth_contract W (default false mainnet) address contents)) st
  ∧ ∀ r st',
      assemble_contract W (S fuel) name address mainnet st = (r, st') →
      ABI_CACHE st' = ABI_CACHE st ∧ trace st' = trace st ∧
      ∀ c, r = Ok c → c_abi c = contents.
Proof.
  intros Hreach Hfile Hne. apply reachable_wf in Hreach as Hwf.
  assert (Heq : assemble_contract W (S fuel) name address mainnet st
                = cached CONTRACT_CACHE set_CONTRACT_CACHE (name, address, mainnet)
                    (lift (eth_contract W (default false mainnet) address contents)) st).
  { rewrite assemble_contract_S, Hfile.
    apply str_truthy_true in Hne. rewrite Hne. reflexivity. }
  split; [exact Heq|]. intros r st'. rewrite Heq.
  intros [(c & Hg & -> & ->)|(Hg & st1 & Hf)]%cached_inv.
  - split; [done|]. split; [done|]. intros c' [= <-].
    apply getitem_elem_of, (wf_contract_cache _ _ Hwf) in Hg as (_ & _ & Habi).
    by apply Habi.
  - unfold lift, eth_contract in Hf.
    destruct (contract_check W (default false mainnet) address contents) as [e|].
    + destruct Hf as [(v & [=] & _)|(e' & [= <- <-] & -> & ->)]. by repeat split.
    + destruct Hf as [(v & [= <- <-] & -> & ->)|(e' & [=] & _)].
      split; [done|]. split; [done|]. by intros c [= <-].
Qed.

Lemma local_abi_wins_witness :
  assemble_contract Sample.world 5 (Some "rocketStorage") (VStr Sample.storage_address)
    (Some true) Sample.rp
  = cached CONTRACT_CACHE set_CONTRACT_CACHE
      (Some "rocketStorage", VStr Sample.storage_address, Some true)
      (lift (eth_contract Sample.world true (VStr Sample.storage_address) "[storage]"))
      Sample.rp.
Proof.
  refine (proj1 (local_abi_wins Sample.world 4 (Some "rocketStorage")
                   (VStr Sample.storage_address) (Some true) "[storage]" Sample.rp
                   (reachable_flush Sample.world Sample.blank) _ _)).
  - vm_compute. reflexivity.
  - discriminate.
Defined.

(** ** Revert reasons *)

(** C7: [get_revert_reason] replays the transaction's own parameters at
    its block; a replay that returns gives [None], a contract logic error
    gives its messages joined by a comma and a space, and a value error
    gives "Out of gas" for code -32000 and "Hidden Error" for every other
    code. *)
Theorem revert_reason_decoding (W : World) (tnx : Transaction) (st : RocketPool) :
  trace (snd (get_revert_reason W tnx st))
  = EvEthCall {| cp_from := tx_from tnx; cp_to := tx_to tnx; cp_data := tx_input tnx;
                 cp_gas := tx_gas tnx; cp_gasPrice := tx_gasPrice tnx;
                 cp_value := tx_value tnx |} (tx_blockNumber tnx) :: trace st
  ∧ (∀ data,
       eth_call W (trace st) (replay_params tnx) (tx_blockNumber tnx) = Returned data →
       fst (get_revert_reason W tnx st) = Ok None)
  ∧ (∀ args,
       eth_call W (trace st) (replay_params tnx) (tx_blockNumber tnx)
       = RaisedContractLogicError args →
       fst (get_revert_reason W tnx st) = Ok (Some (String.concat ", " args)))
  ∧ (eth_call W (trace st) (replay_params tnx) (tx_blockNumber tnx)
     = RaisedValueError (-32000) →
     fst (get_revert_reason W tnx st) = Ok (Some "Out of gas"))
  ∧ (∀ code,
       code ≠ -32000 →
       eth_call W (trace st) (replay_params tnx) (tx_blockNumber tnx)
       = RaisedValueError code →
       fst (get_revert_reason W tnx st) = Ok (Some "Hidden Error")).
Proof.
  unfold get_revert_reason. split_and!.
  - destruct (eth_call _ _ _ _); try destruct (_ =? _); reflexivity.
  - by intros data ->.
  - by intros args ->.
  - by intros ->.
  - intros code Hc ->. apply Z.eqb_neq in Hc. by rewrite Hc.
Qed.

(** The three transactions of the specification's example. *)
Lemma revert_reason_decoding_witness :
  let tnx gas := {| tx_from := "0xA"; tx_to := "0xB"; tx_input := "0x"; tx_gas := gas;
                    tx_gasPrice := 1; tx_value := 0; tx_blockNumber := 15000000;
                    tx_hash := "0xC" |} in
  fst (get_revert_reason Sample.world (tnx 21000) Sample.rp) = Ok None
  ∧ fst (get_revert_reason Sample.world (tnx 3) Sample.rp) = Ok (Some "Insufficient balance")
  ∧ fst (get_revert_reason Sample.world (tnx 1) Sample.rp) = Ok (Some "Out of gas")
  ∧ fst (get_revert_reason Sample.world (tnx 2) Sample.rp) = Ok (Some "Hidden Error").
Proof.
  intros tnx.
  destruct (revert_reason_decoding Sample.world (tnx 21000) Sample.rp) as (_ & H0 & _).
  destruct (revert_reason_decoding Sample.world (tnx 3) Sample.rp) as (_ & _ & H3 & _).
  destruct (revert_reason_decoding Sample.world (tnx 1) Sample.rp) as (_ & _ & _ & H1 & _).
  destruct (revert_reason_decoding Sample.world (tnx 2) Sample.rp) as (_ & _ & _ & _ & H2).
  split_and!.
  - apply (H0 "0x"). reflexivity.
  - apply (H3 ["Insufficient balance"]). reflexivity.
  - apply H1. reflexivity.
  - apply (H2 (-32603)); [discriminate|reflexivity].
Defined.

(** ** The deposit event of a receipt *)

Section deposit.
Variable W : World.

(** With the filter at "ignore", [processReceipt] leaves the state alone,
    whatever the logs are. *)
Lemma processReceipt_ignore_state c entries st :
  warn_filter st = FilterIgnore → snd (processReceipt W c entries st) = st.
Proof.
  intros Hf. induction entries as [|entry entries IH]; [done|]. simpl.
  destruct (decode_DepositEvent W c entry) as [pubkey| |e]; [| |done].
  - unfold bind. destruct (processReceipt W c entries st) as [[rest|e] st']; by simpl in *.
  - unfold bind at 1, warn. by rewrite Hf.
Qed.

(** When no log makes the decoder raise, the logs that are not the event
    are left out without a trace. *)
Lemma processReceipt_ignore c entries st :
  warn_filter st = FilterIgnore →
  (∀ entry, entry ∈ entries → decode_raises W c entry = None) →
  processReceipt W c entries st = (Ok (omap (decoded_pubkey W c) entries), st).
Proof.
  intros Hf. induction entries as [|entry entries IH]; intros Hno; [done|].
  assert (Hrest : ∀ x, x ∈ entries → decode_raises W c x = None)
    by (intros x Hx; apply Hno; by right).
  assert (Hentry : decode_raises W c entry = None) by (apply Hno; by left).
  simpl. unfold decoded_pubkey, decode_raises in *.
  destruct (decode_DepositEvent W c entry) as [pubkey| |e]; [| |done].
  - unfold bind. by rewrite IH.
  - unfold bind at 1, warn. rewrite Hf. by apply IH.
Qed.

(** The first log that makes the decoder raise ends the call with its
    exception. *)
Lemma processReceipt_raises c before entry after e st :
  warn_filter st = FilterIgnore →
  (∀ x, x ∈ before → decode_raises W c x = None) →
  decode_DepositEvent W c entry = DecodeRaised e →
  processReceipt W c (before ++ entry :: after) st = (Err e, st).
Proof.
  intros Hf Hno He. induction before as [|x before IH]; simpl.
  - by rewrite He.
  - assert (Hx : decode_raises W c x = None) by (apply Hno; by left).
    assert (Hrest : ∀ y, y ∈ before → decode_raises W c y = None)
      by (intros y Hy; apply Hno; by right).
    unfold decode_raises in Hx.
    destruct (decode_DepositEvent W c x) as [pubkey| |e']; [| |done].
    + unfold bind. by rewrite IH.
    + unfold bind at 1, warn. rewrite Hf. by apply IH.
Qed.

Lemma same_warnings_trans st1 st2 st3 :
  same_warnings st1 st2 → same_warnings st2 st3 → same_warnings st1 st3.
Proof. intros [? ?] [? ?]. split; congruence. Qed.

Lemma resolution_quiet_all fuel : resolution_quiet W fuel.
Proof.
  induction fuel as [|fuel (IHa & IHu & IHabi & IHuabi & IHasm & IHc)].
  { unfold resolution_quiet. split_and!; intros; simpl in *; unfold raise in *;
      by simplify_eq. }
  unfold resolution_quiet. split_and!.
  - intros name st r st'. rewrite get_address_by_name_S.
    intros [(v & Hg & -> & ->)|(Hg & st1 & Hf)]%cached_inv; [done|].
    assert (same_warnings st st1) as Hs.
    { destruct (Bidict.get name (addresses st)).
      - destruct Hf as [(v & [= <- <-] & _)|(e & [=] & _)]. done.
      - destruct Hf as [(v & Hu & _)|(e & Hu & _)]; by apply IHu in Hu. }
    destruct Hf as [(v & _ & _ & ->)|(e & _ & _ & ->)]; [|done].
    eapply same_warnings_trans; [exact Hs|done].
  - intros name st r st'. rewrite uncached_get_address_by_name_S.
    intros [(sha3 & st0 & [= <- <-] & Hk)|(e & [=] & _)]%bind_inv.
    apply bind_inv in Hk as [(c & st1 & Hc & Hk)|(e & Hc & ->)];
      apply IHc in Hc; [|done].
    apply bind_inv in Hk as [(address & st2 & [= Hch <-] & Hk)|(e & [= Hch <-] & ->)];
      [|done].
    apply bind_inv in Hk as [(n & st3 & [= Hn <-] & Hk)|(e & [= Hn <-] & ->)]; [|done].
    destruct (n =? 0); [unfold raise in Hk; by simplify_eq|].
    apply bind_inv in Hk as [([] & st4 & Hs & [= <- <-])|(e & Hs & ->)];
      apply addresses_setitem_inv in Hs as [(b & _ & _ & ->)|(e' & _ & _ & ->)]; done.
  - intros name st r st'. rewrite get_abi_by_name_S.
    intros [(v & Hg & -> & ->)|(Hg & st1 & Hf)]%cached_inv; [done|].
    destruct Hf as [(v & Hu & -> & ->)|(e & Hu & -> & ->)]; by apply IHuabi in Hu.
  - intros name st r st'. rewrite uncached_get_abi_by_name_S.
    intros [(sha3 & st0 & [= Hsha <-] & Hk)|(e & [= Hsha <-] & _)]%bind_inv; [|done].
    apply bind_inv in Hk as [(c & st1 & Hc & Hk)|(e & Hc & ->)];
      apply IHc in Hc; [|done].
    apply bind_inv in Hk as [(s & st2 & [= Hch <-] & Hk)|(e & [= Hch <-] & ->)]; [|done].
    destruct (negb (str_truthy s)); unfold raise, lift in Hk; by simplify_eq.
  - intros name address mainnet st r st'. rewrite assemble_contract_S.
    intros [(v & Hg & -> & ->)|(Hg & st1 & Hf)]%cached_inv; [done|].
    assert (same_warnings st st1) as Hs.
    { destruct Hf as [(v & Hu & _)|(e & Hu & _)];
        apply bind_inv in Hu as [(abi & st2 & Ha & Hk)|(e' & Ha & ?)];
        unfold lift in *; simplify_eq;
        destruct (file W (abi_path name)) as [contents|];
        try destruct (str_truthy contents); unfold ret in Ha; simplify_eq;
        try done; by apply IHabi in Ha. }
    destruct Hf as [(v & _ & _ & ->)|(e & _ & _ & ->)]; [|done].
    eapply same_warnings_trans; [exact Hs|done].
  - intros name st r st'. rewrite get_contract_by_name_S.
    intros [(address & st1 & Ha & Hk)|(e & Ha & _)]%bind_inv;
      apply IHa in Ha; [|done].
    eapply same_warnings_trans; [exact Ha|]. by eapply IHasm.
Qed.

End deposit.

(** C8, as stated, fails: the logs of a receipt are all decoded, and
    only the four errors that [processReceipt] catches are turned into
    warnings.  Here the first log is a deposit that decodes, and the
    second one makes the decoder raise something else: the call raises,
    instead of returning the pubkey of the first log. *)
Lemma malformed_log_is_raised :
  let deposit := {| c_mainnet := false; c_address := VStr Sample.deposit_address;
                    c_abi := "decoded eJw=" |} in
  let first := {| log_address := "0xB"; log_topics := []; log_data := "deposit-b" |} in
  let second := {| log_address := "0xB"; log_topics := [];
                   log_data := "deposit-malformed" |} in
  fst (get_contract_by_name Sample.world 9 "casperDeposit" Sample.rp) = Ok deposit
  ∧ decoded_pubkey Sample.world deposit first = Some ["c"]%byte
  ∧ fst (get_pubkey_using_transaction Sample.world 10 {| logs := [first; second] |} Sample.rp)
    = Err (ExternalError 3).
Proof. vm_compute. repeat split; reflexivity. Qed.

(** C8 (amended): with the deposit contract resolved,
    [get_pubkey_using_transaction] shows no warning and leaves the
    warnings filter as it was, whatever the ambient filter; when no log of
    the receipt makes the decoder raise an exception that [processReceipt]
    does not catch, it returns the [pubkey], in hexadecimal, of the first
    log that decodes as a [DepositEvent], and [None] when no log does: the
    logs that are not this event never make it raise; and the first log
    that does make the decoder raise such an exception ends the call with
    it, also when an earlier log has decoded. *)
Theorem pubkey_of_first_deposit_event (W : World) (fuel : nat) (receipt : Receipt)
    (st st1 : RocketPool) (deposit : Contract) :
  get_contract_by_name W fuel "casperDeposit" (set_warn_filter FilterIgnore st)
  = (Ok deposit, st1) →
  shown_warnings (snd (get_pubkey_using_transaction W (S fuel) receipt st))
  = shown_warnings st
  ∧ warn_filter (snd (get_pubkey_using_transaction W (S fuel) receipt st)) = warn_filter st
  ∧ ((∀ entry, entry ∈ logs receipt → decode_raises W deposit entry = None) →
     fst (get_pubkey_using_transaction W (S fuel) receipt st)
     = Ok (bytes_hex <$> head (omap (decoded_pubkey W deposit) (logs receipt))))
  ∧ (∀ before entry after e,
       logs receipt = (before ++ entry :: after)%list →
       (∀ x, x ∈ before → decode_raises W deposit x = None) →
       decode_DepositEvent W deposit entry = DecodeRaised e →
       fst (get_pubkey_using_transaction W (S fuel) receipt st) = Err e).
Proof.
  intros Hc.
  destruct (resolution_quiet_all W fuel) as (_ & _ & _ & _ & _ & Hq).
  destruct (Hq _ _ _ _ Hc) as [Hfilter Hshown]. simpl in Hfilter, Hshown.
  assert (Hbody : catch_warnings_ignore
            (let! deposit := get_contract_by_name W fuel "casperDeposit" in
             processReceipt W deposit (logs receipt)) st
          = (fst (processReceipt W deposit (logs receipt) st1),
             set_warn_filter (warn_filter st) st1)).
  { unfold catch_warnings_ignore. unfold bind at 1. rewrite Hc.
    pose proof (processReceipt_ignore_state W deposit (logs receipt) st1 Hfilter) as Hs.
    destruct (processReceipt W deposit (logs receipt) st1) as [r st2]. simpl in Hs.
    by subst st2. }
  assert (Hcall : get_pubkey_using_transaction W (S fuel) receipt st
          = (match fst (processReceipt W deposit (logs receipt) st1) with
             | Ok l => Ok (bytes_hex <$> head l)
             | Err e => Err e
             end, set_warn_filter (warn_filter st) st1)).
  { simpl. unfold bind at 1. rewrite Hbody.
    by destruct (fst (processReceipt W deposit (logs receipt) st1)) as [[|pubkey l]|e]. }
  rewrite Hcall. simpl. split; [done|]. split; [done|]. split.
  - intros Hno. by rewrite (processReceipt_ignore W deposit _ st1 Hfilter Hno).
  - intros before entry after e -> Hno He.
    by rewrite (processReceipt_raises W deposit before entry after e st1 Hfilter Hno He).
Qed.

(** A receipt whose first log is unrelated and whose second and third
    logs are deposits, read while warnings are errors. *)
Lemma pubkey_of_first_deposit_event_witness :
  let receipt :=
    {| logs := [ {| log_address := "0xA"; log_topics := []; log_data := "transfer" |};
                 {| log_address := "0xB"; log_topics := []; log_data := "deposit-b" |};
                 {| log_address := "0xB"; log_topics := []; log_data := "deposit-a" |} ] |} in
  warn_filter Sample.rp = FilterError
  ∧ fst (get_pubkey_using_transaction Sample.world 10 receipt Sample.rp) = Ok (Some "63")
  ∧ shown_warnings (snd (get_pubkey_using_transaction Sample.world 10 receipt Sample.rp))
    = shown_warnings Sample.rp
  ∧ warn_filter (snd (get_pubkey_using_transaction Sample.world 10 receipt Sample.rp))
    = warn_filter Sample.rp.
Proof.
  intros receipt. split; [reflexivity|].
  destruct (pubkey_of_first_deposit_event Sample.world 9 receipt Sample.rp
              (snd (get_contract_by_name Sample.world 9 "casperDeposit"
                      (set_warn_filter FilterIgnore Sample.rp)))
              {| c_mainnet := false; c_address := VStr Sample.deposit_address;
                 c_abi := "decoded eJw=" |})
    as (Hshown & Hfilter & Hok & _); [vm_compute; reflexivity|].
  split; [|by split]. rewrite Hok; [vm_compute; reflexivity|].
  intros entry Hin. unfold receipt in Hin. simpl in Hin.
  repeat (apply elem_of_cons in Hin as [->|Hin]; [vm_compute; reflexivity|]).
  by apply elem_of_nil in Hin.
Defined.

(** ** A falsy address *)

(** C10: an [address] argument that is falsy ([None], the empty string,
    zero, empty bytes) makes [get_function] behave exactly as without the
    argument: the same result and the same state, the address being the
    one [get_address_by_name] gives for the contract name of the path. *)
Theorem falsy_address_is_resolved (W : World) (fuel : nat) (path : string)
    (args : list pyval) (address : pyval) (mainnet : bool) (st : RocketPool) :
  truthy address = false →
  get_function W fuel path args address mainnet st
  = get_function W fuel path args VNone mainnet st
  ∧ get_function W (S fuel) path args address mainnet st
    = (let! '(name, function) := lift (split_path path) in
       let! a := get_address_by_name W fuel name in
       let! contract := assemble_contract W fuel (Some name) (VStr a) (Some mainnet) in
       lift (bind_function W contract function args)) st.
Proof.
  intros Hf. split.
  - destruct fuel as [|fuel]; [done|]. simpl. by rewrite Hf.
  - simpl. rewrite Hf. simpl. unfold bind, lift, ret.
    destruct (split_path path) as [[name function]|e]; [|done].
    by destruct (get_address_by_name W fuel name st) as [[a|e] st1].
Qed.

Lemma falsy_address_is_resolved_witness :
  truthy (VStr "") = false ∧ truthy (VInt 0) = false ∧
  get_function Sample.world 10 "rocketTokenRPL.totalSupply" [] (VStr "") false Sample.rp
  = get_function Sample.world 10 "rocketTokenRPL.totalSupply" [] VNone false Sample.rp
  ∧ get_function Sample.world 10 "rocketTokenRPL.totalSupply" [] (VInt 0) false Sample.rp
    = get_function Sample.world 10 "rocketTokenRPL.totalSupply" [] VNone false Sample.rp.
Proof.
  split; [reflexivity|]. split; [reflexivity|]. split.
  - exact (proj1 (falsy_address_is_resolved Sample.world 10 "rocketTokenRPL.totalSupply" []
                    (VStr "") false Sample.rp eq_refl)).
  - exact (proj1 (falsy_address_is_resolved Sample.world 10 "rocketTokenRPL.totalSupply" []
                    (VInt 0) false Sample.rp eq_refl)).
Defined.

(** * Further properties *)

(** ** More on the caches *)

Section more_fifo.
Context {K V : Type} `{EqDecision K}.
Implicit Types (c : FIFO.t K V) (k : K) (v : V).

Lemma getitem_app_miss k v c : FIFO.getitem k c = None → FIFO.getitem k (c ++ [(k, v)])%list = Some v.
Proof.
  induction c as [|[k' v'] c IH]; simpl; [by rewrite decide_True|].
  destruct (decide (k = k')); [done|]. apply IH.
Qed.

Lemma getitem_delitem k c : FIFO.getitem k (FIFO.delitem k c) = None.
Proof.
  induction c as [|[k' v'] c IH]; simpl; [done|].
  destruct (decide (k = k')) as [|Hne]; [done|]. simpl. by rewrite decide_False.
Qed.

Lemma getitem_make_room k c : FIFO.getitem k c = None → FIFO.getitem k (FIFO.make_room c) = None.
Proof.
  induction c as [|[k' v'] c IH]; [done|]. cbn [FIFO.make_room].
  destruct (decide _); [|done]. simpl. destruct (decide (k = k')); [done|]. apply IH.
Qed.

Lemma getitem_setitem k v c : FIFO.getitem k (FIFO.setitem k v c) = Some v.
Proof.
  unfold FIFO.setitem. destruct (FIFO.getitem k c) eqn:Hg.
  - apply getitem_app_miss, getitem_delitem.
  - by apply getitem_app_miss, getitem_make_room.
Qed.

Lemma delitem_length k c : (length (FIFO.delitem k c) ≤ length c)%nat.
Proof.
  induction c as [|[k' v'] c IH]; simpl; [done|].
  destruct (decide (k = k')); simpl; lia.
Qed.

Lemma delitem_length_hit k c :
  is_Some (FIFO.getitem k c) → (length (FIFO.delitem k c) < length c)%nat.
Proof.
  induction c as [|[k' v'] c IH]; simpl; [by intros [? ?]|].
  destruct (decide (k = k')); simpl.
  - intros _. pose proof (delitem_length k c). lia.
  - intros Hs. apply IH in Hs. lia.
Qed.

Lemma setitem_length k v c :
  (length c ≤ FIFO.maxsize)%nat → (length (FIFO.setitem k v c) ≤ FIFO.maxsize)%nat.
Proof.
  intros Hc. unfold FIFO.setitem. destruct (FIFO.getitem k c) eqn:Hg; rewrite length_app; simpl.
  - assert (is_Some (FIFO.getitem k c)) as Hs%delitem_length_hit by eauto. lia.
  - apply make_room_length.
Qed.

End more_fifo.

Section cache_bound.
Variable W : World.

Lemma update_within_maxsize st st' : update st st' → within_maxsize st → within_maxsize st'.
Proof.
  intros Hu (Ha & Hb & Hc). destruct Hu; unfold within_maxsize; simpl;
    split_and!; try done; by apply setitem_length.
Qed.

Lemma updates_within_maxsize st st' :
  rtc update st st' → within_maxsize st → within_maxsize st'.
Proof. induction 1; eauto using update_within_maxsize. Qed.

End cache_bound.

(** X1: in every state the object can be in ([flush] followed by any of
    the operations, the direct calls of the uncached helpers included)
    each of the three caches holds at most 2048 entries. *)
Theorem caches_stay_within_maxsize (W : World) (st : RocketPool) :
  possible W st →
  (length (ADDRESS_CACHE st) ≤ 2048)%nat
  ∧ (length (ABI_CACHE st) ≤ 2048)%nat
  ∧ (length (CONTRACT_CACHE st) ≤ 2048)%nat.
Proof.
  induction 1 as [st|fuel o st _ IH].
  - destruct (flush W st) as [r st'] eqn:Hf.
    apply flush_caches in Hf as (Ha & Hb & Hc & _). simpl.
    rewrite Ha, Hb, Hc. simpl. lia.
  - by apply (updates_within_maxsize _ _ (run_op_updates W fuel o st)).
Qed.

Lemma caches_stay_within_maxsize_witness :
  (length (ADDRESS_CACHE
             (run_ops Sample.crowded_world (Sample.numbered 1 2048) Sample.crowded_first))
   ≤ 2048)%nat.
Proof.
  refine (proj1 (caches_stay_within_maxsize Sample.crowded_world _ _)).
  apply reachable_possible, reachable_run_ops; [apply numbered_no_direct_lookup|].
  apply (reachable_op Sample.crowded_world 10 (OpGetAddressByName "0")); [reflexivity|].
  apply reachable_flush.
Defined.

(** ** Memoization and the handles *)

Section handles.
Variable W : World.

Lemma cached_miss {K V} `{EqDecision K}
    (cache : RocketPool → FIFO.t K V) store (k : K) (func : M V) st :
  FIFO.getitem k (cache st) = None →
  cached cache store k func st
  = match func st with
    | (Ok v, st') => (Ok v, store (FIFO.setitem k v (cache st')) st')
    | (Err e, st') => (Err e, st')
    end.
Proof. intros Hg. unfold cached. by rewrite Hg. Qed.


Lemma cached_again {K V} `{EqDecision K}
    (cache : RocketPool → FIFO.t K V) store (k : K) (func func' : M V) st v st' :
  (∀ c s, cache (store c s) = c) →
  cached cache store k func st = (Ok v, st') →
  FIFO.getitem k (cache st') = Some v
  ∧ cached cache store k func' st' = (Ok v, st').
Proof.
  intros Hlens Hc.
  assert (Hg : FIFO.getitem k (cache st') = Some v).
  { apply cached_inv in Hc
      as [(v' & Hg & [= <-] & ->)|(_ & st1 & [(v' & _ & [= <-] & ->)|(e & _ & [=] & _)])];
      [done|]. rewrite Hlens. apply getitem_setitem. }
  split; [done|]. unfold cached. by rewrite Hg.
Qed.

Lemma assemble_contract_bound fuel name address mainnet st c st' :
  wf W st →
  assemble_contract W fuel name address mainnet st = (Ok c, st') →
  c_address c = address ∧ c_mainnet c = default false mainnet.
Proof.
  intros Hwf. destruct fuel as [|fuel]; [done|]. rewrite assemble_contract_S.
  intros [(v & Hg & [= <-] & ->)|(_ & st1 & [(v & Hf & [= <-] & ->)|(e & _ & [=] & _)])]%cached_inv.
  - apply getitem_elem_of, (wf_contract_cache _ _ Hwf) in Hg as (? & ? & _). done.
  - apply bind_inv in Hf as [(abi & st2 & _ & Hk)|(e & _ & [=])].
    unfold lift, eth_contract in Hk.
    destruct (contract_check W (default false mainnet) address abi); [done|].
    by injection Hk as <- _.
Qed.


End handles.


(** X2: in a reachable state a handle that [assemble_contract] returns is
    bound to the address and to the network it was asked for, it is in the
    contract cache under the three arguments of the call, and a second
    call with the same arguments returns the same handle and changes
    nothing. *)
Theorem handle_is_bound_and_memoized (W : World) (fuel : nat) (name : option string)
    (address : pyval) (mainnet : option bool) (st st' : RocketPool) (c : Contract) :
  reachable W st →
  assemble_contract W fuel name address mainnet st = (Ok c, st') →
  c_address c = address
  ∧ c_mainnet c = default false mainnet
  ∧ FIFO.getitem (name, address, mainnet) (CONTRACT_CACHE st') = Some c
  ∧ ∀ fuel', assemble_contract W (S fuel') name address mainnet st' = (Ok c, st').
Proof.
  intros Hwf%reachable_wf Ha.
  destruct (assemble_contract_bound W _ _ _ _ _ _ _ Hwf Ha) as [Hadr Hnet].
  split; [done|]. split; [done|].
  destruct fuel as [|fuel]; [done|]. rewrite assemble_contract_S in Ha.
  split.
  - by eapply (cached_again CONTRACT_CACHE set_CONTRACT_CACHE _ _ (ret c)).
  - intros fuel'. rewrite assemble_contract_S.
    by eapply (cached_again CONTRACT_CACHE set_CONTRACT_CACHE).
Qed.

Lemma handle_is_bound_and_memoized_witness :
  c_mainnet (Build_Contract true (VStr Sample.rpl_address) "decoded eJw=") = default false (Some true)
  ∧ FIFO.getitem (Some "rocketTokenRPL", VStr Sample.rpl_address, Some true)
      (CONTRACT_CACHE
         (snd (assemble_contract Sample.world 10 (Some "rocketTokenRPL")
                 (VStr Sample.rpl_address) (Some true) Sample.rp)))
    = Some (Build_Contract true (VStr Sample.rpl_address) "decoded eJw=").
Proof.
  destruct (handle_is_bound_and_memoized Sample.world 10 (Some "rocketTokenRPL")
              (VStr Sample.rpl_address) (Some true) Sample.rp
              (snd (assemble_contract Sample.world 10 (Some "rocketTokenRPL")
                      (VStr Sample.rpl_address) (Some true) Sample.rp))
              (Build_Contract true (VStr Sample.rpl_address) "decoded eJw=")
              (reachable_flush Sample.world Sample.blank))
    as (_ & Hnet & Hcache & _); [vm_compute; reflexivity|].
  split; [exact Hnet|exact Hcache].
Defined.





(** ** More on resolving names *)

(** X9: as long as [uncached_get_address_by_name] is not called directly
    (neither since the last flush nor between the two calls),
    [get_address_by_name] never answers two different names with the same
    address.  After a direct call it can: see
    [direct_lookup_leaves_the_cache_stale], where the names [0] and
    [successor] are both answered with [0x10]. *)
Theorem resolution_is_injective (W : World) (st0 st1 st3 : RocketPool)
    (fuel1 fuel2 : nat) (name1 name2 a : string) (os : list (nat * op)) :
  reachable W st0 →
  get_address_by_name W fuel1 name1 st0 = (Ok a, st1) →
  no_direct_lookup os →
  get_address_by_name W fuel2 name2 (run_ops W os st1) = (Ok a, st3) →
  name1 = name2.
Proof.
  intros Hwf0%reachable_wf H1 Hos H2.
  destruct (resolution_grows_all W fuel1) as (IH1 & _).
  destruct (resolution_grows_all W fuel2) as (IH2 & _).
  destruct (IH1 _ _ _ _ H1) as [Hgr1 Hres1].
  destruct (run_ops_evolves W os st1 Hos) as (Hwf2 & Hsub2 & _).
  destruct (IH2 _ _ _ _ H2) as [(Hwf3 & Hsub3 & _) Hres2].
  assert (Hw1 : wf W st1) by by apply Hgr1.
  assert (Hw3 : wf W st3) by auto.
  assert (Hn1 : Bidict.fwdm (addresses st3) !! name1 = Some a).
  { eapply lookup_weaken; [|exact Hsub3]. eapply lookup_weaken; [|exact Hsub2]. by apply Hres1. }
  assert (Hn2 : Bidict.fwdm (addresses st3) !! name2 = Some a) by (apply Hres2; auto).
  apply (wf_consistent _ _ Hw3) in Hn1, Hn2. congruence.
Qed.

Lemma resolution_is_injective_witness :
  "rocketTokenRPL" = "rocketTokenRPL"
  ∧ fst (get_address_by_name Sample.world 10 "rocketVault"
           (snd (get_address_by_name Sample.world 10 "rocketTokenRPL" Sample.rp)))
    = Err (ValueDuplicationError Sample.rpl_address).
Proof.
  split; [|vm_compute; reflexivity].
  apply (resolution_is_injective Sample.world Sample.rp
           (snd (get_address_by_name Sample.world 10 "rocketTokenRPL" Sample.rp))
           (snd (get_address_by_name Sample.world 10 "rocketTokenRPL"
                   (run_ops Sample.world [(10%nat, OpGetContractByName "casperDeposit")]
                      (snd (get_address_by_name Sample.world 10 "rocketTokenRPL" Sample.rp)))))
           10 10 "rocketTokenRPL" "rocketTokenRPL" Sample.rpl_address
           [(10%nat, OpGetContractByName "casperDeposit")]).
  - exact (reachable_flush Sample.world Sample.blank).
  - vm_compute. reflexivity.
  - repeat constructor.
  - vm_compute. reflexivity.
Defined.

Section failures.
Variable W : World.

Lemma uncached_failure_keeps_registry fuel name st e st' :
  uncached_get_address_by_name W fuel name st = (Err e, st') →
  addresses st' = addresses st.
Proof.
  destruct fuel as [|fuel]; [by intros [= _ <-]|].
  rewrite uncached_get_address_by_name_S.
  intros [(sha3 & ? & [= _ <-] & Hk)|(e' & [=] & _)]%bind_inv.
  destruct (resolution_grows_all W fuel) as (_ & _ & _ & _ & _ & IHc).
  apply bind_inv in Hk as [(c & st1 & Hc & Hk)|(e' & Hc & _)];
    apply IHc, grows_storage, grows_nil_inv in Hc as [Hc _]; [|done].
  apply bind_inv in Hk as [(address & ? & [= _ <-] & Hk)|(e' & [= _ <-] & _)]; [|done].
  apply bind_inv in Hk as [(n & ? & [= _ <-] & Hk)|(e' & [= _ <-] & _)]; [|done].
  destruct (n =? 0); [by injection Hk as _ <-|].
  apply bind_inv in Hk as [([] & st4 & Hs & [=])|(e' & Hs & _)].
  by apply addresses_setitem_inv in Hs as [(b & [=] & _)|(e'' & _ & _ & ->)].
Qed.

End failures.

(** X10: in a reachable state, when [get_address_by_name(name)] raises
    (with at least its own frame left), [name] was not registered, the
    registry is exactly as before and the address cache has no entry for
    [name]: a failed resolution leaves nothing behind for the name. *)
Theorem failed_resolution_leaves_nothing (W : World) (fuel : nat) (name : string)
    (st st' : RocketPool) (e : exn) :
  reachable W st →
  get_address_by_name W (S fuel) name st = (Err e, st') →
  Bidict.get name (addresses st) = None
  ∧ addresses st' = addresses st
  ∧ FIFO.getitem name (ADDRESS_CACHE st') = None.
Proof.
  intros Hwf%reachable_wf Hcall.
  destruct (resolution_grows_all W (S fuel)) as (IHa & _).
  destruct (IHa _ _ _ _ Hcall) as [(Hwf' & _) _].
  rewrite get_address_by_name_S in Hcall.
  apply cached_inv in Hcall
    as [(v & _ & [=] & _)|(Hg & st1 & [(v & _ & [=] & _)|(e' & Hf & [= <-] & ->)])].
  destruct (Bidict.get name (addresses st)) as [a|] eqn:Hreg; [done|].
  apply uncached_failure_keeps_registry in Hf as Haddr.
  split; [done|]. split; [done|].
  destruct (FIFO.getitem name (ADDRESS_CACHE st1)) as [v|] eqn:Hg'; [|done].
  apply getitem_elem_of, (wf_address_cache _ _ (Hwf' Hwf)) in Hg'.
  rewrite Haddr in Hg'. unfold Bidict.get in Hreg. congruence.
Qed.

Lemma failed_resolution_leaves_nothing_witness :
  Bidict.get "rocketVault"
    (addresses (snd (get_address_by_name Sample.world 10 "rocketTokenRPL" Sample.rp))) = None
  ∧ addresses (snd (get_address_by_name Sample.world 10 "rocketVault"
                      (snd (get_address_by_name Sample.world 10 "rocketTokenRPL" Sample.rp))))
    = addresses (snd (get_address_by_name Sample.world 10 "rocketTokenRPL" Sample.rp))
  ∧ FIFO.getitem "rocketVault"
      (ADDRESS_CACHE (snd (get_address_by_name Sample.world 10 "rocketVault"
                             (snd (get_address_by_name Sample.world 10 "rocketTokenRPL"
                                     Sample.rp))))) = None.
Proof.
  apply (failed_resolution_leaves_nothing Sample.world 9 "rocketVault"
           (snd (get_address_by_name Sample.world 10 "rocketTokenRPL" Sample.rp))
           _ (ValueDuplicationError Sample.rpl_address)).
  - apply (reachable_op Sample.world 10 (OpGetAddressByName "rocketTokenRPL"));
      [reflexivity|].
    exact (reachable_flush Sample.world Sample.blank).
  - vm_compute. reflexivity.
Defined.

(** X12: while [rocketStorage] is neither in the address cache nor in the
    registry, resolving a name that is not there either can only exhaust
    the stack: at every depth the call raises [RecursionError], and the
    state is untouched. *)
Theorem unconfigured_storage_recurses (W : World) (fuel : nat) (name : string)
    (st : RocketPool) :
  FIFO.getitem "rocketStorage" (ADDRESS_CACHE st) = None →
  Bidict.get "rocketStorage" (addresses st) = None →
  FIFO.getitem name (ADDRESS_CACHE st) = None →
  Bidict.get name (addresses st) = None →
  get_address_by_name W fuel name st = (Err RecursionError, st)
  ∧ get_contract_by_name W fuel name st = (Err RecursionError, st).
Proof.
  intros Hsc Hsr Hnc Hnr.
  assert (Ha : ∀ fuel, get_address_by_name W fuel name st = (Err RecursionError, st)).
  { intros [|f]; [done|]. rewrite get_address_by_name_S. unfold cached. rewrite Hnc, Hnr.
    destruct f as [|f]; [done|].
    rewrite uncached_get_address_by_name_S. unfold bind at 1. simpl. unfold bind at 1.
    by destruct (storage_unresolved W f st Hsc Hsr) as (_ & _ & ->). }
  split; [apply Ha|].
  destruct fuel as [|fuel]; [done|]. rewrite get_contract_by_name_S. unfold bind.
  by rewrite Ha.
Qed.

Lemma unconfigured_storage_recurses_witness :
  get_address_by_name Sample.world 1000 "rocketTokenRPL" Sample.blank
  = (Err RecursionError, Sample.blank).
Proof.
  refine (proj1 (unconfigured_storage_recurses Sample.world 1000 "rocketTokenRPL"
                   Sample.blank _ _ _ _)); reflexivity.
Defined.

(** ** The storage contract needs a local ABI *)

Section storage_abi.
Variable W : World.

Hypothesis no_file :
  file W (abi_path (Some "rocketStorage")) = None
  ∨ file W (abi_path (Some "rocketStorage")) = Some "".

Lemma overflows_O {A} (m : M A) st : m = raise RecursionError → overflows m st.
Proof. intros ->. by exists st. Qed.

Lemma storage_address_frame fuel st r st' :
  get_address_by_name W fuel "rocketStorage" st = (r, st') →
  CONTRACT_CACHE st' = CONTRACT_CACHE st ∧ ABI_CACHE st' = ABI_CACHE st
  ∧ (r = Err RecursionError ∨ ∃ a, r = Ok a).
Proof.
  destruct fuel as [|fuel]; [intros [= <- <-]; by eauto|].
  rewrite get_address_by_name_S.
  intros [(v & Hg & -> & ->)|(Hg & st1 & Hf)]%cached_inv; [by eauto|].
  destruct (Bidict.get "rocketStorage" (addresses st)) as [a|] eqn:Hr.
  - destruct Hf as [(v & [= <- <-] & -> & ->)|(e & [=] & _)]. simpl. by eauto.
  - destruct (storage_unresolved W fuel st Hg Hr) as (_ & Hu & _). rewrite Hu in Hf.
    destruct Hf as [(v & [=] & _)|(e & [= <- <-] & -> & ->)]. by eauto.
Qed.

Lemma overflows_uncached_abi fuel st :
  (∀ fuel', (fuel' < fuel)%nat → overflows (get_contract_by_name W fuel' "rocketStorage") st) →
  overflows (uncached_get_abi_by_name W fuel (Some "rocketStorage")) st.
Proof.
  intros IH. destruct fuel as [|fuel]; [by apply overflows_O|].
  destruct (IH fuel) as (st' & Hc & ? & ?); [lia|].
  exists st'. split; [|done].
  rewrite uncached_get_abi_by_name_S. unfold bind at 1. simpl. unfold bind at 1.
  by rewrite Hc.
Qed.

Lemma overflows_abi fuel st :
  FIFO.getitem (Some "rocketStorage") (ABI_CACHE st) = None →
  (∀ fuel', (fuel' < fuel)%nat → overflows (get_contract_by_name W fuel' "rocketStorage") st) →
  overflows (get_abi_by_name W fuel (Some "rocketStorage")) st.
Proof.
  intros Hmiss IH. destruct fuel as [|fuel]; [by apply overflows_O|].
  destruct (overflows_uncached_abi fuel st) as (st' & Hu & ? & ?);
    [intros; apply IH; lia|].
  exists st'. split; [|done].
  rewrite get_abi_by_name_S. unfold cached. by rewrite Hmiss, Hu.
Qed.

Lemma overflows_assemble fuel address mainnet st :
  no_storage_abi st →
  (∀ fuel', (fuel' < fuel)%nat → overflows (get_contract_by_name W fuel' "rocketStorage") st) →
  overflows (assemble_contract W fuel (Some "rocketStorage") address mainnet) st.
Proof.
  intros [Hc Habi] IH. destruct fuel as [|fuel]; [by apply overflows_O|].
  destruct (overflows_abi fuel st Habi) as (st' & Hu & ? & ?);
    [intros; apply IH; lia|].
  exists st'. split; [|done].
  rewrite assemble_contract_S. unfold cached. rewrite Hc. unfold bind.
  destruct no_file as [-> | ->]; simpl; by rewrite Hu.
Qed.

Lemma overflows_storage fuel :
  ∀ st, no_storage_abi st → overflows (get_contract_by_name W fuel "rocketStorage") st.
Proof.
  induction fuel as [fuel IH] using lt_wf_ind. intros st Hno.
  destruct fuel as [|fuel]; [by apply overflows_O|].
  destruct (get_address_by_name W fuel "rocketStorage" st) as [r st1] eqn:Ha.
  destruct (storage_address_frame _ _ _ _ Ha) as (Hc1 & Hb1 & Hr).
  assert (Hno1 : no_storage_abi st1).
  { destruct Hno as [? ?]. split; [intros; rewrite Hc1|rewrite Hb1]; done. }
  destruct Hr as [->|[a ->]].
  - exists st1. split; [|done]. rewrite get_contract_by_name_S. unfold bind. by rewrite Ha.
  - destruct (overflows_assemble fuel (VStr a) None st1 Hno1) as (st2 & Hs & ? & ?);
      [intros; apply IH; [lia|done]|].
    exists st2. split; [|split; congruence].
    rewrite get_contract_by_name_S. unfold bind. by rewrite Ha.
Qed.

End storage_abi.

(** X13: when the ABI of [rocketStorage] is not in a local file (no file,
    or an empty one) and no handle or ABI of it is cached, the storage
    contract cannot be assembled: [get_contract_by_name("rocketStorage")]
    raises [RecursionError] at every depth, and with it every resolution
    of a name that is neither cached nor registered. *)
Theorem storage_abi_must_be_local (W : World) (fuel : nat) (name : string)
    (st : RocketPool) :
  file W (abi_path (Some "rocketStorage")) = None
  ∨ file W (abi_path (Some "rocketStorage")) = Some "" →
  (∀ address mainnet,
     FIFO.getitem (Some "rocketStorage", address, mainnet) (CONTRACT_CACHE st) = None) →
  FIFO.getitem (Some "rocketStorage") (ABI_CACHE st) = None →
  fst (get_contract_by_name W fuel "rocketStorage" st) = Err RecursionError
  ∧ (FIFO.getitem name (ADDRESS_CACHE st) = None →
     Bidict.get name (addresses st) = None →
     fst (get_address_by_name W fuel name st) = Err RecursionError).
Proof.
  intros Hfile Hc Habi.
  assert (Hno : no_storage_abi st) by done.
  split.
  - by destruct (overflows_storage W Hfile fuel st Hno) as (st' & -> & _).
  - intros Hnc Hnr. destruct fuel as [|fuel]; [done|].
    rewrite get_address_by_name_S. unfold cached. rewrite Hnc, Hnr.
    destruct fuel as [|fuel]; [done|].
    rewrite uncached_get_address_by_name_S. unfold bind at 1. simpl. unfold bind at 1.
    by destruct (overflows_storage W Hfile fuel st Hno) as (st' & -> & _).
Qed.

Lemma storage_abi_must_be_local_witness :
  fst (get_contract_by_name Remote.world 1000 "rocketStorage" Remote.rp) = Err RecursionError
  ∧ (FIFO.getitem "rocketTokenRPL" (ADDRESS_CACHE Remote.rp) = None →
     Bidict.get "rocketTokenRPL" (addresses Remote.rp) = None →
     fst (get_address_by_name Remote.world 1000 "rocketTokenRPL" Remote.rp)
     = Err RecursionError).
Proof.
  apply (storage_abi_must_be_local Remote.world 1000 "rocketTokenRPL" Remote.rp).
  - left. reflexivity.
  - intros address mainnet. reflexivity.
  - reflexivity.
Defined.

(** ** More on flush *)

Section flush_more.
Variable W : World.
Import Bidict.

Lemma seed_addresses_ok_iff items st :
  NoDup items.*1 →
  (∀ name, name ∈ items.*1 → fwdm (addresses st) !! name = None) →
  is_ok (fst (seed_addresses items st)) = true
  ↔ NoDup items.*2 ∧ ∀ address, address ∈ items.*2 → invm (addresses st) !! address = None.
Proof.
  revert st. induction items as [|[n a] items IH]; intros st Hnd Hfresh.
  { simpl. split; [|done]. intros _. split; [constructor|]. by intros ? ?%elem_of_nil. }
  simpl in Hnd. apply NoDup_cons in Hnd as [Hn Hnd].
  assert (Hk : fwdm (addresses st) !! n = None) by (apply Hfresh; simpl; left).
  cbn [seed_addresses]. unfold bind, addresses_setitem, setitem. rewrite Hk.
  destruct (invm (addresses st) !! a) as [other|] eqn:Hi.
  - simpl. split; [done|]. intros [_ Hall]. specialize (Hall a). rewrite Hi in Hall.
    discriminate Hall. simpl. left.
  - rewrite IH; [|done|].
    + simpl. rewrite NoDup_cons. split.
      * intros [Hnd2 Hall]. split; [split; [|done]|].
        -- intros Hin. specialize (Hall a Hin). by rewrite lookup_insert_eq in Hall.
        -- intros v [->|Hv]%elem_of_cons; [done|].
           specialize (Hall v Hv). destruct (decide (v = a)) as [->|Hne]; [done|].
           by rewrite lookup_insert_ne in Hall.
      * intros [[Hna Hnd2] Hall]. split; [done|]. intros v Hv.
        rewrite lookup_insert_ne; [|by intros <-]. apply Hall. by right.
    + intros k Hkin. simpl. rewrite lookup_insert_ne; [|by intros <-].
      apply Hfresh. simpl. by right.
Qed.

End flush_more.

(** X15: with the overrides of the configuration under distinct names,
    [flush()] completes exactly when their addresses are pairwise
    distinct; a failure to build the Multicall client never makes it
    raise, it only leaves [multicall] unset. *)
Theorem flush_completes_iff_addresses_distinct (W : World) (st : RocketPool) :
  NoDup (manual_addresses W).*1 →
  (is_ok (fst (flush W st)) = true ↔ NoDup (manual_addresses W).*2)
  ∧ multicall (snd (flush W st)) = is_ok (multicall_init W).
Proof.
  intros Hnd. split.
  - unfold flush. rewrite seed_addresses_ok_iff; [|done|intros; apply lookup_empty].
    split; [by intros [? _]|]. intros Hv. split; [done|]. intros; apply lookup_empty.
  - destruct (flush W st) as [r st'] eqn:Hf. unfold flush in Hf.
    apply seed_addresses_frame in Hf as [(_ & _ & _ & Hm & _) _]. done.
Qed.

Lemma flush_completes_iff_addresses_distinct_witness :
  (is_ok (fst (flush Remote.world Sample.blank)) = true
   ↔ NoDup (manual_addresses Remote.world).*2)
  ∧ multicall (snd (flush Remote.world Sample.blank)) = false.
Proof.
  apply (flush_completes_iff_addresses_distinct Remote.world Sample.blank).
  simpl. apply NoDup_singleton.
Defined.

(** ** More on the deposit event *)

(** X16: however [get_pubkey_using_transaction] ends, also when the
    deposit contract cannot be resolved, the warnings filter is the one
    that was in force before the call and no warning has been shown. *)
Theorem pubkey_lookup_restores_the_filter (W : World) (fuel : nat) (receipt : Receipt)
    (st : RocketPool) :
  warn_filter (snd (get_pubkey_using_transaction W fuel receipt st)) = warn_filter st
  ∧ shown_warnings (snd (get_pubkey_using_transaction W fuel receipt st))
    = shown_warnings st.
Proof.
  destruct fuel as [|fuel]; [done|].
  assert (Hcw : ∀ r1 st1,
    catch_warnings_ignore
      (let! deposit := get_contract_by_name W fuel "casperDeposit" in
       processReceipt W deposit (logs receipt)) st = (r1, st1) →
    warn_filter st1 = warn_filter st ∧ shown_warnings st1 = shown_warnings st).
  { intros r1 st1. unfold catch_warnings_ignore.
    destruct (bind _ _ (set_warn_filter FilterIgnore st)) as [r2 st2] eqn:Hb.
    intros [= <- <-]. split; [done|]. simpl.
    destruct (resolution_quiet_all W fuel) as (_ & _ & _ & _ & _ & Hq).
    apply bind_inv in Hb as [(c & st3 & Hc & Hp)|(e & Hc & _)];
      apply Hq in Hc as [Hfilter Hshown]; simpl in *; [|done].
    pose proof (processReceipt_ignore_state W c (logs receipt) st3 Hfilter) as Hs.
    rewrite Hp in Hs. simpl in Hs. by subst st2. }
  destruct (get_pubkey_using_transaction W (S fuel) receipt st) as [r st'] eqn:Hg.
  simpl in Hg. apply bind_inv in Hg as [(l & st1 & Hl & Hk)|(e & Hl & _)];
    apply Hcw in Hl; [|done].
  destruct l; by injection Hk as _ <-.
Qed.

(** ** More on ABIs *)

(** X14: on a miss of the ABI cache, with the storage contract resolved,
    [get_abi_by_name] raises the "no abi found" exception when the string
    stored on the chain is empty and otherwise returns what [decode_abi]
    makes of that string; a returned ABI, and nothing else, is put into
    the ABI cache. *)
Theorem abi_lookup_decodes_the_chain_string (W : World) (fuel : nat) (name : string)
    (st st1 : RocketPool) (storage : Contract) (compressed : string) :
  FIFO.getitem (Some name) (ABI_CACHE st) = None →
  get_contract_by_name W fuel "rocketStorage" st = (Ok storage, st1) →
  chain_getString W (trace st1) storage
    (keccak W ["string"; "string"] ["contract.abi"; name]) = Ok compressed →
  let st2 := record_event
               (EvGetString (Some name) storage
                  (keccak W ["string"; "string"] ["contract.abi"; name])) st1 in
  get_abi_by_name W (S (S fuel)) (Some name) st
  = if decide (compressed = "")
    then (Err (Exception ("No abi found for " ++ name ++ " Contract")), st2)
    else match decode_abi W compressed with
         | Ok abi => (Ok abi, set_ABI_CACHE (FIFO.setitem (Some name) abi (ABI_CACHE st2)) st2)
         | Err e => (Err e, st2)
         end.
Proof.
  intros Hmiss Hstorage Hchain st2.
  rewrite get_abi_by_name_S. unfold cached. rewrite Hmiss.
  rewrite uncached_get_abi_by_name_S. unfold bind at 1. simpl. unfold bind at 1.
  rewrite Hstorage. unfold bind, storage_getString. rewrite Hchain.
  unfold str_truthy. destruct (decide (compressed = "")) as [->|Hne]; [done|].
  rewrite bool_decide_eq_false_2 by done. simpl. unfold lift.
  by destruct (decode_abi W compressed).
Qed.

Lemma abi_lookup_decodes_the_chain_string_witness :
  fst (get_abi_by_name Sample.world 5 (Some "unknownContract") Sample.rp)
  = Err (Exception "No abi found for unknownContract Contract")
  ∧ fst (get_abi_by_name Sample.world 5 (Some "rocketTokenRPL") Sample.rp)
    = Ok "decoded eJw=".
Proof.
  split.
  - rewrite (abi_lookup_decodes_the_chain_string Sample.world 3 "unknownContract" Sample.rp
               (snd (get_contract_by_name Sample.world 3 "rocketStorage" Sample.rp))
               (Build_Contract false (VStr Sample.storage_address) "[storage]") "");
      [reflexivity|reflexivity|vm_compute; reflexivity|vm_compute; reflexivity].
  - rewrite (abi_lookup_decodes_the_chain_string Sample.world 3 "rocketTokenRPL" Sample.rp
               (snd (get_contract_by_name Sample.world 3 "rocketStorage" Sample.rp))
               (Build_Contract false (VStr Sample.storage_address) "[storage]") "eJw=");
      [reflexivity|reflexivity|vm_compute; reflexivity|vm_compute; reflexivity].
Defined.

(** ** The minipool queues *)

Section queues.
Variable W : World.

Lemma get_items_length fuel key indices st items st' :
  get_items W fuel key indices st = (Ok items, st') → length items = length indices.
Proof.
  revert st items st'. induction indices as [|i indices IH]; intros st items st'; simpl.
  - by intros [= <- _].
  - intros [(item & st1 & _ & Hk)|(e & _ & [=])]%bind_inv.
    apply bind_inv in Hk as [(rest & st2 & Hr & [= <- _])|(e & _ & [=])].
    simpl. f_equal. by eapply IH.
Qed.

Lemma range_length limit : length (range limit) = Z.to_nat limit.
Proof. unfold range. by rewrite length_fmap, length_seq. Qed.

Lemma get_minipools_by_type_length fuel minipool_type limit st cap results st' :
  get_minipools_by_type W fuel minipool_type limit st = (Ok (cap, results), st') →
  ∃ c, cap = VInt c ∧ length results = Z.to_nat (Z.min c limit).
Proof.
  destruct fuel as [|fuel]; [done|]. simpl.
  intros [(key & ? & _ & Hk)|(e & _ & [=])]%bind_inv.
  apply bind_inv in Hk as [(cap' & st1 & _ & Hk)|(e & _ & [=])].
  destruct cap' as [|c| |]; try done.
  apply bind_inv in Hk as [(items & st2 & Hi & [= <- <- _])|(e & _ & [=])].
  exists c. split; [done|]. apply get_items_length in Hi. by rewrite Hi, range_length.
Qed.

End queues.

(** X17: when [get_minipools_by_type] returns, the reported length of the
    queue is an integer and the list holds exactly min(cap, limit) items,
    none when that is negative: never more than [limit], and never more
    than the queue has. *)
Theorem minipool_queue_is_capped (W : World) (fuel : nat) (minipool_type : string)
    (limit : Z) (st st' : RocketPool) (cap : pyval) (results : list pyval) :
  get_minipools_by_type W fuel minipool_type limit st = (Ok (cap, results), st') →
  ∃ c, cap = VInt c
       ∧ length results = Z.to_nat (Z.min c limit)
       ∧ Z.of_nat (length results) ≤ Z.max 0 limit
       ∧ Z.of_nat (length results) ≤ Z.max 0 c.
Proof.
  intros (c & -> & Hl)%get_minipools_by_type_length. exists c. rewrite Hl.
  split_and!; [done|done|lia|lia].
Qed.

Lemma minipool_queue_is_capped_witness :
  get_minipools_by_type Queues.world 10 "minipools.available.half" 2 Queues.rp
  = (Ok (VInt 3, [VStr "minipool 0"; VStr "minipool 1"]),
     snd (get_minipools_by_type Queues.world 10 "minipools.available.half" 2 Queues.rp))
  ∧ ∃ c, VInt 3 = VInt c
         ∧ length [VStr "minipool 0"; VStr "minipool 1"] = Z.to_nat (Z.min c 2)
         ∧ Z.of_nat (length [VStr "minipool 0"; VStr "minipool 1"]) ≤ Z.max 0 2
         ∧ Z.of_nat (length [VStr "minipool 0"; VStr "minipool 1"]) ≤ Z.max 0 c.
Proof.
  assert (Hrun : get_minipools_by_type Queues.world 10 "minipools.available.half" 2 Queues.rp
                 = (Ok (VInt 3, [VStr "minipool 0"; VStr "minipool 1"]),
                    snd (get_minipools_by_type Queues.world 10 "minipools.available.half" 2
                           Queues.rp))) by (vm_compute; reflexivity).
  split; [exact Hrun|].
  exact (minipool_queue_is_capped Queues.world 10 "minipools.available.half" 2 Queues.rp
           _ (VInt 3) [VStr "minipool 0"; VStr "minipool 1"] Hrun).
Defined.

(** X18: when [get_minipools] returns, each of the three queues (half,
    full, empty) comes with an integer length and with min(length, limit)
    items. *)
Theorem minipools_are_capped (W : World) (fuel : nat) (limit : Z) (st st' : RocketPool)
    (half full empty : pyval * list pyval) :
  get_minipools W fuel limit st = (Ok (half, full, empty), st') →
  Forall (λ queue, ∃ c, queue.1 = VInt c ∧ length queue.2 = Z.to_nat (Z.min c limit))
         [half; full; empty].
Proof.
  destruct fuel as [|fuel]; [done|]. simpl.
  intros [([c1 r1] & st1 & H1 & Hk)|(e & _ & [=])]%bind_inv.
  apply bind_inv in Hk as [([c2 r2] & st2 & H2 & Hk)|(e & _ & [=])].
  apply bind_inv in Hk as [([c3 r3] & st3 & H3 & [= <- <- <- _])|(e & _ & [=])].
  repeat constructor; simpl; by eapply get_minipools_by_type_length.
Qed.

Lemma minipools_are_capped_witness :
  Forall (λ queue, ∃ c, queue.1 = VInt c ∧ length queue.2 = Z.to_nat (Z.min c 1))
         [(VInt 3, [VStr "minipool 0"]); (VInt 3, [VStr "minipool 0"]);
          (VInt 3, [VStr "minipool 0"])].
Proof.
  apply (minipools_are_capped Queues.world 10 1 Queues.rp
           (snd (get_minipools Queues.world 10 1 Queues.rp))).
  vm_compute. reflexivity.
Defined.

(** ** The inverse lookup *)

(** X4: in a reachable state [get_name_by_address] answers [name] for an
    address exactly when the registry maps [name] to that address; it
    never changes the state and answers [None] for anything that is not a
    string. *)
Theorem name_by_address_inverts_the_registry (W : World) (st : RocketPool)
    (name a : string) :
  reachable W st →
  (get_name_by_address (VStr a) st = (Ok (Some name), st)
   ↔ Bidict.get name (addresses st) = Some a)
  ∧ (∀ address, snd (get_name_by_address address st) = st)
  ∧ (∀ z b, get_name_by_address (VInt z) st = (Ok None, st)
            ∧ get_name_by_address (VBytes b) st = (Ok None, st)
            ∧ get_name_by_address VNone st = (Ok None, st)).
Proof.
  intros Hwf%reachable_wf. split_and!.
  - unfold get_name_by_address, Bidict.get, Bidict.inverse_get.
    rewrite (wf_consistent _ _ Hwf name a). split; [by intros [= ->]|by intros ->].
  - by intros [].
  - done.
Qed.

Lemma name_by_address_inverts_the_registry_witness :
  get_name_by_address (VStr Sample.storage_address) Sample.rp
  = (Ok (Some "rocketStorage"), Sample.rp)
  ↔ Bidict.get "rocketStorage" (addresses Sample.rp) = Some Sample.storage_address.
Proof.
  exact (proj1 (name_by_address_inverts_the_registry Sample.world Sample.rp "rocketStorage"
                  Sample.storage_address (reachable_flush Sample.world Sample.blank))).
Defined.

(** X5: [get_contract_by_address] of an address that the registry does
    not know assembles under the name [None]: unless a file
    [./contracts/None.abi.json] exists or something is cached under that
    name, the ABI lookup rejects the name with a [TypeError] and nothing
    changes. *)
Theorem contract_by_unknown_address_fails (W : World) (fuel : nat) (a : string)
    (st : RocketPool) :
  Bidict.inverse_get a (addresses st) = None →
  file W "./contracts/None.abi.json" = None →
  FIFO.getitem (None, VStr a, None) (CONTRACT_CACHE st) = None →
  FIFO.getitem None (ABI_CACHE st) = None →
  get_contract_by_address W (S (S (S (S fuel)))) (VStr a) st = (Err TypeError, st).
Proof.
  intros Hinv Hfile Hc Habi. cbn [get_contract_by_address]. unfold bind, get_name_by_address.
  rewrite Hinv. rewrite assemble_contract_S. rewrite cached_miss by exact Hc.
  unfold bind. change (abi_path None) with "./contracts/None.abi.json". rewrite Hfile.
  rewrite get_abi_by_name_S. rewrite cached_miss by exact Habi.
  rewrite uncached_get_abi_by_name_S. done.
Qed.

Lemma contract_by_unknown_address_fails_witness :
  get_contract_by_address Sample.world 4 (VStr Sample.rpl_address) Sample.rp
  = (Err TypeError, Sample.rp).
Proof.
  apply (contract_by_unknown_address_fails Sample.world 0 Sample.rpl_address Sample.rp);
    reflexivity.
Defined.

(** ** Gas estimates *)



(** ** The uncached lookup *)

(** X11: an address that [uncached_get_address_by_name] returns is never
    zero and is registered under the name, in both directions, in place of
    an older address of the name: the registry is the one the
    specification's [set] describes and it stays a bijection. *)
Theorem uncached_lookup_registers_its_answer (W : World) (fuel : nat) (name a : string)
    (st st' : RocketPool) :
  Bidict.consistent (addresses st) →
  uncached_get_address_by_name W fuel name st = (Ok a, st') →
  (∃ n, toInt a = Ok n ∧ n ≠ 0)
  ∧ Bidict.get name (addresses st') = Some a
  ∧ Bidict.inverse_get a (addresses st') = Some name
  ∧ addresses st' = spec_set name a (addresses st)
  ∧ Bidict.consistent (addresses st').
Proof.
  intros Hcons Hu. destruct fuel as [|fuel]; [done|].
  rewrite uncached_get_address_by_name_S in Hu.
  apply bind_inv in Hu as [(sha3 & ? & [= _ <-] & Hk)|(e & _ & [=])].
  destruct (resolution_grows_all W fuel) as (_ & _ & _ & _ & _ & IHc).
  apply bind_inv in Hk as [(c & st1 & Hc & Hk)|(e & _ & [=])].
  apply IHc, grows_storage, grows_nil_inv in Hc as [Haddr _].
  apply bind_inv in Hk as [(address & ? & [= _ <-] & Hk)|(e & _ & [=])].
  apply bind_inv in Hk as [(n & ? & [= Hn <-] & Hk)|(e & _ & [=])].
  destruct (n =? 0) eqn:Hz; [done|]. apply Z.eqb_neq in Hz.
  apply bind_inv in Hk as [([] & st4 & Hs & [= <- <-])|(e & _ & [=])].
  apply addresses_setitem_inv in Hs as [(b & _ & Hs & ->)|(e & [=] & _)].
  simpl in *. rewrite Haddr in Hs.
  split; [by eauto|].
  destruct (setitem_lookup _ _ _ _ Hcons Hs) as [? ?].
  split_and!; try done.
  - by apply setitem_spec_set.
  - by eapply setitem_consistent.
Qed.

Lemma uncached_lookup_registers_its_answer_witness :
  (∃ n, toInt Sample.rpl_address = Ok n ∧ n ≠ 0)
  ∧ Bidict.get "rocketTokenRPL"
      (addresses (snd (uncached_get_address_by_name Sample.world 10 "rocketTokenRPL"
                         Sample.rp))) = Some Sample.rpl_address.
Proof.
  destruct (uncached_lookup_registers_its_answer Sample.world 10 "rocketTokenRPL"
              Sample.rpl_address Sample.rp
              (snd (uncached_get_address_by_name Sample.world 10 "rocketTokenRPL" Sample.rp)))
    as (Hn & Hreg & _).
  - apply (wf_consistent Sample.world), reachable_wf.
    exact (reachable_flush Sample.world Sample.blank).
  - vm_compute. reflexivity.
  - split; [exact Hn|exact Hreg].
Defined.


